(** * The priority-queue crawler of [index-poké.py] ([PokéAPIScraper])

    A shallow embedding of the scraper class: its scoring function, the
    Redis-backed frontier (a sorted set plus two plain sets), the fetch
    loop with retries and the worker loop, followed by the properties
    that the specification states about them.

    Modelling conventions
    - Python [int] is [Z]; Python [float] is modelled by exact rational
      arithmetic ([Q]): a score is the exact value of
      [type_priority * 100 + depth * 10 + counter * 0.001].  Binary64
      rounding (below 1e-12 on the scores met here) is outside that model;
      the concrete inputs used below keep a margin of at least 0.001
      around every comparison and every floor.  Module [Binary64] has the
      same arithmetic in IEEE double precision: it re-evaluates the score
      and the depth recovery at those inputs and at the ends of the
      counter range, and the order of the scores is proved for the
      doubles as well, for every counter value of the sequence range.
    - [str] is [string] (a byte string: the UTF-8 encoding).
    - A Redis sorted set is a [gmap string Q], a Redis set a [gset string].
    - Whatever the program reads from its environment (HTTP answers, the
      wall clock, whether a Redis command fails) comes from an oracle
      [Env], indexed by the number of environment interactions so far. *)

From Stdlib Require Import ZArith QArith Qround Lqa Lia String Ascii List.
From Stdlib Require Import Floats.SpecFloat.
From stdpp Require Import base option list gmap strings fin_maps fin_sets.
Import ListNotations.

#[local] Set Warnings "-clear-no-such-hyp".

Local Open Scope string_scope.
Local Open Scope Z_scope.

(** ** Python built-ins used by the scraper *)

(** [s.startswith(p)] *)
Definition startswith (s p : string) : bool := String.prefix p s.

(** [s.replace(old, new)]: non-overlapping occurrences, left to right.
    [skip] counts the characters of a match that remain to be dropped. *)
Fixpoint replace_from (old new : string) (skip : nat) (s : string) : string :=
  match s with
  | EmptyString => EmptyString
  | String c s' =>
      match skip with
      | S k => replace_from old new k s'
      | O =>
          if String.prefix old s
          then new ++ replace_from old new (String.length old - 1) s'
          else String c (replace_from old new O s')
      end
  end.

Fixpoint intersperse_str (new s : string) : string :=
  match s with
  | EmptyString => EmptyString
  | String c s' => String c (new ++ intersperse_str new s')
  end.

Definition replace (old new s : string) : string :=
  match old with
  | EmptyString => new ++ intersperse_str new s
  | _ => replace_from old new O s
  end.

(** [s.split(sep)] for a one-character separator: never an empty list. *)
Fixpoint split (sep : ascii) (s : string) : list string :=
  match s with
  | EmptyString => [EmptyString]
  | String c s' =>
      if Ascii.eqb c sep then EmptyString :: split sep s'
      else match split sep s' with
           | [] => [String c EmptyString]
           | p :: ps => String c p :: ps
           end
  end.

(** [x % y] and [x // y] on floats (floored, sign of the divisor), [int(x)]
    (truncation towards zero). *)
Definition float_mod (x y : Q) : Q := (x - y * inject_Z (Qfloor (x / y)))%Q.
Definition float_floordiv (x y : Q) : Q := inject_Z (Qfloor (x / y)).
Definition int_of_float (x : Q) : Z :=
  if Qle_bool 0 x then Qfloor x else Qceiling x.

(** ** Scorer *)

(** The dictionary [type_priorities] of [_calculate_url_score]. *)
Definition type_priorities : gmap string Z :=
  list_to_map
    [("films", 1); ("people", 2); ("planets", 3);
     ("starships", 4); ("vehicles", 4); ("species", 5)].

(** [url_parts[0] if url_parts else "unknown"], then
    [type_priorities.get(resource_type, 9)]. *)
Definition resource_type (root_url url : string) : string :=
  let url_parts := split "/" (replace root_url EmptyString url) in
  match url_parts with
  | [] => "unknown"
  | p :: _ => p
  end.

Definition type_priority (root_url url : string) : Z :=
  default 9 (type_priorities !! resource_type root_url url).

(** [(type_priority * 100) + (depth * 10) + (counter * 0.001)] *)
Definition score_formula (type_priority depth counter : Z) : Q :=
  (inject_Z (type_priority * 100 + depth * 10) + inject_Z counter * (1 # 1000))%Q.

(** [int((score % 100) // 10)], the worker's depth recovery. *)
Definition current_depth (score : Q) : Z :=
  int_of_float (float_floordiv (float_mod score 100) 10).


(** The score in thousandths, as an integer: a specification-level view
    of [score_formula] used to state what the depth recovery computes. *)
Definition millis (type_priority depth counter : Z) : Z :=
  type_priority * 100000 + depth * 10000 + counter.

Definition Qlt_bool (x y : Q) : bool := negb (Qle_bool y x).

(** ** JSON payloads, exceptions, and the environment *)

#[local] Set Warnings "-register-all".

Inductive json : Type :=
| JNull
| JBool (b : bool)
| JInt (n : Z)       (* a number without fraction or exponent: Python [int] *)
| JFloat (q : Q)     (* any other number: Python [float] *)
| JStr (s : string)
| JArr (items : list json)
| JObj (fields : list (string * json)).

(** Python truth value of a decoded JSON document. *)
Definition truthy (j : json) : bool :=
  match j with
  | JNull => false
  | JBool b => b
  | JInt n => negb (n =? 0)
  | JFloat q => negb (Qeq_bool q 0)
  | JStr s => negb (String.eqb s EmptyString)
  | JArr items => match items with [] => false | _ => true end
  | JObj fields => match fields with [] => false | _ => true end
  end.

(** [type(j).__name__], as it appears in the messages of [TypeError] and
    [AttributeError]. *)
Definition type_name (j : json) : string :=
  match j with
  | JNull => "NoneType"
  | JBool _ => "bool"
  | JInt _ => "int"
  | JFloat _ => "float"
  | JStr _ => "str"
  | JArr _ => "list"
  | JObj _ => "dict"
  end.

(** A [dict] decoded from JSON, as an association list with distinct keys. *)
Fixpoint dict_get (key : string) (fields : list (string * json)) : option json :=
  match fields with
  | [] => None
  | (k, v) :: rest => if String.eqb k key then Some v else dict_get key rest
  end.

Inductive exn_class : Type :=
| RequestException   (* requests.exceptions.RequestException and its subclasses *)
| RedisError         (* redis.exceptions.RedisError and its subclasses *)
| TypeError
| AttributeError
| OtherException.    (* any other subclass of Exception *)

Record exn : Type := Exn { exn_cls : exn_class; exn_str : string }.

Definition is_RequestException (e : exn) : bool :=
  match exn_cls e with RequestException => true | _ => false end.

Inductive Result (A : Type) : Type :=
| Ok (a : A)
| Raise (e : exn).
Arguments Ok {A} a.
Arguments Raise {A} e.

(** What [session.get(url, timeout=10)], [raise_for_status()] and
    [response.json()] together produce for one attempt. *)
Inductive Outcome : Type :=
| Responds (data : json)
| Raises (e : exn).

(** The environment: every field is indexed by the tick at which the
    program consults it. *)
Record Env : Type := {
  session_get : nat -> string -> Outcome;
  time_time : nat -> Q;
  redis_fault : nat -> option string   (* [Some msg]: this command raises RedisError *)
}.

(** ** Scraper state *)

Inductive Level : Type := INFO | WARNING | ERROR.

(** One constructor per logging call that is emitted at level INFO or
    above ([logging.basicConfig(level=logging.INFO)] drops the debug calls). *)
Inductive LogRecord : Type :=
| InitializingRedis
| AddedSeedUrls (urls_added : Z)
| SuccessfullyScraped (url : string)
| AttemptFailed (attempt : Z) (url : string) (e : exn) (wait_time : Q)
| FailedToScrape (url : string) (max_retries : Z)
| UnexpectedError (url : string) (e : exn)
| FailedToSave (url : string) (e : exn)
| WorkerStarted
| NoNewUrlsStopping
| AddedNewUrls (new_count : Z) (url : string)
| WorkerThreadError (e : exn)
| WorkerFinished.

Inductive Event : Type :=
| Sleep (seconds : Q)           (* time.sleep *)
| Get (url : string)            (* session.get *)
| Log (level : Level) (record : LogRecord).

Record StoredData : Type := {
  sd_url : string;
  sd_scraped_at : Q;
  sd_data : json
}.

(** The Redis keys the scraper touches: the sorted set [PENDING_QUEUE],
    the sets [COMPLETED_SET] and [FAILED_SET], and the string keys. *)
Record Redis : Type := {
  pending : gmap string Q;
  completed : gset string;
  failed : gset string;
  strings : gmap string StoredData
}.

Record Stats : Type := {
  start_time : Q;
  last_new_url_time : Q;
  urls_scraped : Z;
  urls_failed : Z;
  errors : list string
}.

Record World : Type := {
  redis : Redis;
  stats : Stats;
  url_counter : Z;
  stop_event : bool;
  trace : list Event;     (* sleeps, requests and log records, oldest first *)
  tick : nat              (* environment interactions so far *)
}.

(** The attributes set once by [__init__]. *)
Record Config : Type := {
  root_url : string;
  request_delay : Q;
  max_retries : Z;
  backoff_factor : Q;
  no_new_urls_timeout : Q
}.

Definition __init__ (root : string) : Config :=
  {| root_url := root;
     request_delay := 1 # 2;
     max_retries := 3;
     backoff_factor := 2;
     no_new_urls_timeout := 30 |}.

Definition DATA_PREFIX : string := "poké:data:".

Inductive SetKey : Type := COMPLETED_SET | FAILED_SET.

Definition with_redis (r : Redis) (w : World) : World :=
  {| redis := r; stats := stats w; url_counter := url_counter w;
     stop_event := stop_event w; trace := trace w; tick := tick w |}.

Definition with_stats (s : Stats) (w : World) : World :=
  {| redis := redis w; stats := s; url_counter := url_counter w;
     stop_event := stop_event w; trace := trace w; tick := tick w |}.

Definition with_url_counter (c : Z) (w : World) : World :=
  {| redis := redis w; stats := stats w; url_counter := c;
     stop_event := stop_event w; trace := trace w; tick := tick w |}.

Definition with_stop_event (b : bool) (w : World) : World :=
  {| redis := redis w; stats := stats w; url_counter := url_counter w;
     stop_event := b; trace := trace w; tick := tick w |}.

Definition emit (ev : Event) (w : World) : World :=
  {| redis := redis w; stats := stats w; url_counter := url_counter w;
     stop_event := stop_event w; trace := trace w ++ [ev]; tick := tick w |}.

Definition next_tick (w : World) : World :=
  {| redis := redis w; stats := stats w; url_counter := url_counter w;
     stop_event := stop_event w; trace := trace w; tick := S (tick w) |}.

(** ** A state-and-exception monad for the methods *)

Definition M (A : Type) : Type := World -> Result A * World.

Definition ret {A} (a : A) : M A := fun w => (Ok a, w).

Definition bind {A B} (m : M A) (k : A -> M B) : M B :=
  fun w =>
    match m w with
    | (Ok a, w') => k a w'
    | (Raise e, w') => (Raise e, w')
    end.

(** [try: body except Exception as e: handler(e)] *)
Definition try_except {A} (body : M A) (handler : exn -> M A) : M A :=
  fun w =>
    match body w with
    | (Ok a, w') => (Ok a, w')
    | (Raise e, w') => handler e w'
    end.

Definition lift {A} (r : Result A) : M A := fun w => (r, w).

Definition modify (f : World -> World) : M unit := fun w => (Ok tt, f w).

Definition gets {A} (f : World -> A) : M A := fun w => (Ok (f w), w).

Notation "x <- m ;; k" := (bind m (fun x => k))
  (at level 100, m at next level, k at level 200, right associativity).
Notation "'do' m ;; k" := (bind m (fun _ => k))
  (at level 100, m at next level, k at level 200, right associativity).

(** [for x in xs: body(x)] *)
Fixpoint for_each {A} (xs : list A) (body : A -> M unit) : M unit :=
  match xs with
  | [] => ret tt
  | x :: rest => do body x ;; for_each rest body
  end.

(** [for x in xs: acc = body(acc, x)] *)
Fixpoint for_fold {A B} (xs : list A) (acc : B) (body : B -> A -> M B) : M B :=
  match xs with
  | [] => ret acc
  | x :: rest => acc' <- body acc x ;; for_fold rest acc' body
  end.

Definition sleep (seconds : Q) : M unit := modify (emit (Sleep seconds)).

Definition logger (level : Level) (record : LogRecord) : M unit :=
  modify (emit (Log level record)).

Section Scraper.

Variable env : Env.
Variable self : Config.

(** [time.time()] *)
Definition time_now : M Q :=
  fun w => (Ok (time_time env (tick w)), next_tick w).

(** One Redis command: it either raises [RedisError] or acts on the store. *)
Definition redis_client {A} (command : Redis -> A * Redis) : M A :=
  fun w =>
    match redis_fault env (tick w) with
    | Some msg => (Raise (Exn RedisError msg), next_tick w)
    | None =>
        let (a, r) := command (redis w) in (Ok a, with_redis r (next_tick w))
    end.

(** [delete(PENDING_QUEUE, COMPLETED_SET, FAILED_SET)] *)
Definition delete_queues : M unit :=
  redis_client (fun r =>
    (tt, {| pending := ∅; completed := ∅; failed := ∅; strings := strings r |})).

(** [scan_iter(match=f"{DATA_PREFIX}*")] *)
Definition scan_iter (prefix : string) : M (list string) :=
  redis_client (fun r =>
    (filter (fun key => startswith key prefix = true) (elements (dom (strings r))), r)).

(** [delete(key)] on a string key *)
Definition delete_key (key : string) : M unit :=
  redis_client (fun r =>
    (tt, {| pending := pending r; completed := completed r; failed := failed r;
            strings := delete key (strings r) |})).

(** [set(key, value)] *)
Definition redis_set (key : string) (value : StoredData) : M unit :=
  redis_client (fun r =>
    (tt, {| pending := pending r; completed := completed r; failed := failed r;
            strings := <[key := value]> (strings r) |})).

(** [zadd(PENDING_QUEUE, {url: score})]: inserts, or overwrites the score. *)
Definition zadd (url : string) (score : Q) : M unit :=
  redis_client (fun r =>
    (tt, {| pending := <[url := score]> (pending r); completed := completed r;
            failed := failed r; strings := strings r |})).

(** [zscore(PENDING_QUEUE, url)] *)
Definition zscore (url : string) : M (option Q) :=
  redis_client (fun r => (pending r !! url, r)).

(** Order of a sorted set: by score, then by member. *)
Definition zset_before (a b : string * Q) : bool :=
  match (snd a ?= snd b)%Q with
  | Lt => true
  | Gt => false
  | Eq => String.ltb (fst a) (fst b)
  end.

Definition zset_min (zs : gmap string Q) : option (string * Q) :=
  foldr (fun a best =>
           match best with
           | None => Some a
           | Some b => if zset_before a b then Some a else Some b
           end)
        None (map_to_list zs).

(** [zpopmin(PENDING_QUEUE, count=1)] *)
Definition zpopmin : M (list (string * Q)) :=
  redis_client (fun r =>
    match zset_min (pending r) with
    | None => ([], r)
    | Some (url, score) =>
        ([(url, score)],
         {| pending := delete url (pending r); completed := completed r;
            failed := failed r; strings := strings r |})
    end).

(** [sismember(key, url)] *)
Definition sismember (key : SetKey) (url : string) : M bool :=
  redis_client (fun r =>
    (match key with
     | COMPLETED_SET => bool_decide (url ∈ completed r)
     | FAILED_SET => bool_decide (url ∈ failed r)
     end, r)).

(** [sadd(key, url)] *)
Definition sadd (key : SetKey) (url : string) : M unit :=
  redis_client (fun r =>
    (tt, match key with
         | COMPLETED_SET =>
             {| pending := pending r; completed := {[url]} ∪ completed r;
                failed := failed r; strings := strings r |}
         | FAILED_SET =>
             {| pending := pending r; completed := completed r;
                failed := {[url]} ∪ failed r; strings := strings r |}
         end)).

(** *** [_calculate_url_score] *)

Definition _calculate_url_score (url : string) (depth : Z) : M Q :=
  let type_priority := type_priority (root_url self) url in
  (* with self.stats_lock: self.url_counter += 1; counter = self.url_counter *)
  do modify (fun w => with_url_counter (url_counter w + 1) w) ;;
  counter <- gets url_counter ;;
  ret (score_formula type_priority depth counter).

(** *** [initialize_redis] *)

(** The body of [for seed_url in seed_urls]. *)
Definition add_seed_url (urls_added : Z) (seed_url : string) : M Z :=
  initial_score <- _calculate_url_score seed_url 0 ;;
  do zadd seed_url initial_score ;;
  ret (urls_added + 1).

Definition initialize_redis (seed_urls : list string) : M unit :=
  do logger INFO InitializingRedis ;;
  do delete_queues ;;
  keys <- scan_iter DATA_PREFIX ;;
  do for_each keys delete_key ;;
  urls_added <- for_fold seed_urls 0 add_seed_url ;;
  logger INFO (AddedSeedUrls urls_added).

(** *** [extract_urls_from_response] *)

Definition url_fields : list string :=
  ["characters"; "films"; "people"; "pilots"; "planets";
   "residents"; "species"; "starships"; "vehicles"].

(** [if field in data: if isinstance(data[field], list): urls.extend(data[field])].
    On a [dict] this looks up the key.  On a [list] or a [str], [in] is a
    membership or substring test and the subscript [data[field]] raises
    [TypeError]; on the other JSON values [in] itself raises [TypeError].
    The messages are those of CPython 3.11. *)
Definition extend_from_field (data : json) (urls : list json) (field : string)
  : Result (list json) :=
  match data with
  | JObj fields =>
      match dict_get field fields with
      | Some (JArr items) => Ok (urls ++ items)%list
      | _ => Ok urls
      end
  | JArr items =>
      if existsb (fun j => match j with JStr s => String.eqb s field | _ => false end) items
      then Raise (Exn TypeError "list indices must be integers or slices, not str")
      else Ok urls
  | JStr s =>
      match String.index 0 field s with
      | Some _ => Raise (Exn TypeError "string indices must be integers, not 'str'")
      | None => Ok urls
      end
  | _ =>
      Raise (Exn TypeError ("argument of type '" ++ type_name data ++ "' is not iterable"))
  end.

Fixpoint collect_urls (data : json) (fields : list string) (urls : list json)
  : Result (list json) :=
  match fields with
  | [] => Ok urls
  | field :: rest =>
      match extend_from_field data urls field with
      | Ok urls' => collect_urls data rest urls'
      | Raise e => Raise e
      end
  end.

(** What [url.startswith] raises when [url] is not a string. *)
Definition no_startswith (j : json) : exn :=
  Exn AttributeError ("'" ++ type_name j ++ "' object has no attribute 'startswith'").

(** [[url for url in urls if url and url.startswith(self.root_url)]] *)
Fixpoint keep_root_urls (urls : list json) : Result (list string) :=
  match urls with
  | [] => Ok []
  | j :: rest =>
      if truthy j then
        match j with
        | JStr url =>
            match keep_root_urls rest with
            | Ok kept => Ok (if startswith url (root_url self) then url :: kept else kept)
            | Raise e => Raise e
            end
        | _ => Raise (no_startswith j)
        end
      else keep_root_urls rest
  end.

Definition extract_urls_from_response (data : json) : Result (list string) :=
  match collect_urls data url_fields [] with
  | Ok urls => keep_root_urls urls
  | Raise e => Raise e
  end.

(** *** [save_response_data] *)

Definition save_response_data (url : string) (data : json) : M unit :=
  try_except
    (let key := DATA_PREFIX ++ replace "/" ":" (replace (root_url self) EmptyString url) in
     scraped_at <- time_now ;;
     redis_set key {| sd_url := url; sd_scraped_at := scraped_at; sd_data := data |})
    (fun e => logger ERROR (FailedToSave url e)).

(** *** [add_new_urls] *)

(** The body of [for url in urls]. *)
Definition add_new_url (depth : Z) (new_urls_count : Z) (url : string) : M Z :=
  is_completed <- sismember COMPLETED_SET url ;;
  score_now <- zscore url ;;
  let is_pending := match score_now with Some _ => true | None => false end in
  if negb is_completed && negb is_pending then
    score <- _calculate_url_score url depth ;;
    do zadd url score ;;
    ret (new_urls_count + 1)
  else ret new_urls_count.

Definition touch_last_new_url_time (now : Q) : M unit :=
  modify (fun w =>
    with_stats {| start_time := start_time (stats w);
                  last_new_url_time := now;
                  urls_scraped := urls_scraped (stats w);
                  urls_failed := urls_failed (stats w);
                  errors := errors (stats w) |} w).

Definition add_new_urls (urls : list string) (depth : Z) : M Z :=
  new_urls_count <- for_fold urls 0 (add_new_url depth) ;;
  do (if 0 <? new_urls_count then
        now <- time_now ;;
        touch_last_new_url_time now
      else ret tt) ;;
  ret new_urls_count.

(** *** [scrape_url] *)

Definition count_scraped : M unit :=
  modify (fun w =>
    with_stats {| start_time := start_time (stats w);
                  last_new_url_time := last_new_url_time (stats w);
                  urls_scraped := urls_scraped (stats w) + 1;
                  urls_failed := urls_failed (stats w);
                  errors := errors (stats w) |} w).

Definition count_failed (entry : string) : M unit :=
  modify (fun w =>
    with_stats {| start_time := start_time (stats w);
                  last_new_url_time := last_new_url_time (stats w);
                  urls_scraped := urls_scraped (stats w);
                  urls_failed := urls_failed (stats w) + 1;
                  errors := errors (stats w) ++ [entry] |} w).

Definition append_error (entry : string) : M unit :=
  modify (fun w =>
    with_stats {| start_time := start_time (stats w);
                  last_new_url_time := last_new_url_time (stats w);
                  urls_scraped := urls_scraped (stats w);
                  urls_failed := urls_failed (stats w);
                  errors := errors (stats w) ++ [entry] |} w).

(** [self.session.get(url, timeout=10); response.raise_for_status(); response.json()] *)
Definition http_get (url : string) : M Outcome :=
  fun w => (Ok (session_get env (tick w) url), next_tick (emit (Get url) w)).

(** The body of [for attempt in range(self.max_retries)], from [attempt] on,
    with [remaining] iterations left. *)
Fixpoint scrape_attempts (remaining : nat) (attempt : Z) (url : string)
  : M (option json) :=
  match remaining with
  | O => ret None
  | S remaining' =>
      do sleep (request_delay self) ;;
      outcome <- http_get url ;;
      match outcome with
      | Responds data =>
          do logger INFO (SuccessfullyScraped url) ;;
          do count_scraped ;;
          ret (Some data)
      | Raises e =>
          if is_RequestException e then
            let wait_time := (backoff_factor self ^ attempt)%Q in
            do logger WARNING (AttemptFailed (attempt + 1) url e wait_time) ;;
            if attempt <? max_retries self - 1 then
              do sleep wait_time ;;
              scrape_attempts remaining' (attempt + 1) url
            else
              do logger ERROR (FailedToScrape url (max_retries self)) ;;
              do count_failed (url ++ ": " ++ exn_str e) ;;
              do sadd FAILED_SET url ;;
              ret None
          else
            do logger ERROR (UnexpectedError url e) ;;
            do append_error (url ++ ": " ++ exn_str e) ;;
            ret None
      end
  end.

Definition scrape_url (url : string) : M (option json) :=
  scrape_attempts (Z.to_nat (max_retries self)) 0 url.

(** *** [worker_thread] *)

Inductive Control : Type := Continue | Break.

(** The [try] block of one iteration of the worker loop. *)
Definition worker_try : M Control :=
  result <- zpopmin ;;
  match result with
  | [] =>
      now <- time_now ;;
      last <- gets (fun w => last_new_url_time (stats w)) ;;
      if Qlt_bool (no_new_urls_timeout self) (now - last) then
        do logger INFO NoNewUrlsStopping ;;
        do modify (with_stop_event true) ;;
        ret Break
      else
        do sleep 1 ;;
        ret Continue
  | (url, score) :: _ =>
      already <- sismember COMPLETED_SET url ;;
      if already then ret Continue
      else
        data <- scrape_url url ;;
        match data with
        | Some data =>
            if truthy data then
              do save_response_data url data ;;
              new_urls <- lift (extract_urls_from_response data) ;;
              let current_depth := current_depth score in
              new_count <- add_new_urls new_urls (current_depth + 1) ;;
              do (if 0 <? new_count then logger INFO (AddedNewUrls new_count url)
                  else ret tt) ;;
              do sadd COMPLETED_SET url ;;
              ret Continue
            else ret Continue
        | None => ret Continue
        end
  end.

(** One iteration: the [try] block and its [except Exception] handler. *)
Definition worker_iteration : M Control :=
  try_except worker_try
    (fun e =>
       do logger ERROR (WorkerThreadError e) ;;
       do sleep 1 ;;
       ret Continue).

(** [while not self.stop_event.is_set(): ...], for at most [fuel]
    iterations.  [None]: the loop is still running when the fuel is spent. *)
Fixpoint worker_loop (fuel : nat) (w : World) : option World :=
  if stop_event w then Some w
  else
    match fuel with
    | O => None
    | S fuel' =>
        match worker_iteration w with
        | (Ok Break, w') => Some w'
        | (Ok Continue, w') => worker_loop fuel' w'
        | (Raise _, w') => Some w'
        end
    end.

Definition worker_thread (fuel : nat) (w : World) : option World :=
  match worker_loop fuel (emit (Log INFO WorkerStarted) w) with
  | Some w' => Some (emit (Log INFO WorkerFinished) w')
  | None => None
  end.

(** *** [print_statistics]: the error lines it shows, [errors[-5:]] *)

Definition shown_errors (w : World) : list string :=
  let errs := errors (stats w) in
  skipn (length errs - 5) errs.

(** *** [run], with a pool of one worker

    [None]: the worker is still running when the fuel is spent;
    [Some (Raise e, _)]: [initialize_redis] raised and the exception left [run]. *)

Definition run (fuel : nat) (seed_urls : list string) (w : World)
  : option (Result unit * World) :=
  match initialize_redis seed_urls w with
  | (Ok _, w1) =>
      match worker_thread fuel w1 with
      | Some w2 => Some (Ok tt, w2)
      | None => None
      end
  | (Raise e, w1) => Some (Raise e, w1)
  end.

End Scraper.

(** ** The same arithmetic in IEEE binary64

    [spec_float] with precision 53 and maximal exponent 1024 is the
    double-precision format of a Python [float]; its operations round to
    nearest, ties to even. *)

Module Binary64.

Definition prec : Z := 53.
Definition emax : Z := 1024.

Definition of_int (z : Z) : spec_float := binary_normalize prec emax z 0 false.
Definition add : spec_float -> spec_float -> spec_float := SFadd prec emax.
Definition sub : spec_float -> spec_float -> spec_float := SFsub prec emax.
Definition mul : spec_float -> spec_float -> spec_float := SFmul prec emax.
Definition div : spec_float -> spec_float -> spec_float := SFdiv prec emax.
Definition ltb : spec_float -> spec_float -> bool := SFltb.

(** The literal [0.001]: the double nearest to 1/1000. *)
Definition lit_0_001 : spec_float := Eval vm_compute in div (of_int 1) (of_int 1000).

(** C's [fmod] for a non-negative dividend and a positive divisor; the
    result is exact. *)
Definition fmod (x y : spec_float) : spec_float :=
  match x, y with
  | S754_finite false mx ex, S754_finite false my ey =>
      let e := Z.min ex ey in
      let X := Z.shiftl (Zpos mx) (ex - e) in
      let Y := Z.shiftl (Zpos my) (ey - e) in
      binary_normalize prec emax (X mod Y) e false
  | S754_zero s, S754_finite false _ _ => S754_zero s
  | _, _ => S754_nan
  end.

Definition floor (x : spec_float) : spec_float :=
  match x with
  | S754_finite s m e => of_int (Z.shiftl (if s then Zneg m else Zpos m) e)
  | _ => x
  end.

(** [int(x)]: truncation towards zero. *)
Definition to_int (x : spec_float) : Z :=
  match x with
  | S754_finite s m e =>
      if s then - Z.shiftl (Zpos m) e else Z.shiftl (Zpos m) e
  | _ => 0
  end.

Definition is_zero (x : spec_float) : bool :=
  match x with S754_zero _ => true | _ => false end.

(** [x % y] and [x // y] as CPython computes them, for [x >= 0] and [y > 0]
    (no sign adjustment applies there): the remainder is [fmod], the
    quotient is [(x - mod) / y] snapped to the nearest integer. *)
Definition float_rem (x y : spec_float) : spec_float := fmod x y.

Definition float_floor_div (x y : spec_float) : spec_float :=
  let md := fmod x y in
  let dv := div (sub x md) y in
  if is_zero dv then dv
  else
    let fl := floor dv in
    if ltb (div (of_int 1) (of_int 2)) (sub dv fl) then add fl (of_int 1) else fl.

Definition score (type_priority depth counter : Z) : spec_float :=
  add (of_int (type_priority * 100 + depth * 10)) (mul (of_int counter) lit_0_001).

Definition current_depth (s : spec_float) : Z :=
  to_int (float_floor_div (float_rem s (of_int 100)) (of_int 10)).

End Binary64.

(** The priorities of the table, the depths 0..9 and the two ends of the
    counter range 1..9999. *)
Definition table_priorities : list Z := [1; 2; 3; 4; 5; 9].
Definition digit_depths : list Z := [0; 1; 2; 3; 4; 5; 6; 7; 8; 9].
Definition counter_ends : list Z := [1; 9999].

(** [range(start, start + n)] *)
Fixpoint upfrom (n : nat) (start : Z) : list Z :=
  match n with
  | O => []
  | S n' => start :: upfrom n' (start + 1)
  end.

(** The sequence range: the counter values 1..9999, whose term
    [counter * 0.001] stays below 10, the weight of one depth step.  The
    counter is incremented before it is used, so the first value is 1. *)
Definition in_sequence_range (counter : Z) : Prop := 1 <= counter <= 9999.
Definition sequence_range : list Z := upfrom (Z.to_nat 9999) 1.

(** The double that [_calculate_url_score] computes for [url] at [depth]
    when the counter stands at [url_counter w]: [score_formula] evaluated
    in binary64. *)
Definition score_as_double (self : Config) (url : string) (depth : Z) (w : World)
  : spec_float :=
  Binary64.score (type_priority (root_url self) url) depth (url_counter w + 1).

(** ** Observations on traces *)

(** Number of HTTP requests in a trace. *)
Fixpoint requests_made (t : list Event) : nat :=
  match t with
  | [] => O
  | Get _ :: rest => S (requests_made rest)
  | _ :: rest => requests_made rest
  end.

(** Every request of a trace comes right after a sleep of [delay] seconds. *)
Fixpoint polite (delay : Q) (t : list Event) : Prop :=
  match t with
  | [] => True
  | Sleep d :: rest =>
      match rest with
      | Get _ :: rest' => d = delay /\ polite delay rest'
      | _ => polite delay rest
      end
  | Get _ :: _ => False
  | Log _ _ :: rest => polite delay rest
  end.

(** The state once an attempt of [scrape_url] has slept and sent its request. *)
Definition attempted (self : Config) (url : string) (w : World) : World :=
  next_tick (emit (Get url) (emit (Sleep (request_delay self)) w)).

(** Redis answers every command. *)
Definition no_faults (env : Env) : Prop := forall n, redis_fault env n = None.

(** Two states that differ at most in the position in the environment. *)
Definition same_state (w w' : World) : Prop :=
  redis w' = redis w /\ stats w' = stats w /\ url_counter w' = url_counter w /\
  stop_event w' = stop_event w /\ trace w' = trace w.

(** A URL that [add_new_urls] must leave alone. *)
Definition known (w : World) (url : string) : Prop :=
  url ∈ completed (redis w) \/ is_Some (pending (redis w) !! url).

(** What a pass of [add_new_urls] over [urls] at [depth] may change between
    [w] and [w']: it inserts [n] URLs, every one of them taken from [urls],
    not known before, and scored at [depth] with a counter value handed
    out during the pass. *)
Definition enqueued (self : Config) (depth : Z) (urls : list string)
    (w w' : World) (n : Z) : Prop :=
  completed (redis w') = completed (redis w) /\
  failed (redis w') = failed (redis w) /\
  strings (redis w') = strings (redis w) /\
  stats w' = stats w /\ stop_event w' = stop_event w /\ trace w' = trace w /\
  0 <= n /\
  url_counter w' = url_counter w + n /\
  Z.of_nat (size (pending (redis w'))) = Z.of_nat (size (pending (redis w))) + n /\
  (forall url,
      pending (redis w') !! url = pending (redis w) !! url \/
      (url ∈ urls /\ ~ known w url /\
       exists counter,
         url_counter w < counter <= url_counter w' /\
         pending (redis w') !! url =
           Some (score_formula (type_priority (root_url self) url) depth counter))) /\
  (n = 0 -> pending (redis w') = pending (redis w)).

(** ** Concrete inputs used by the examples below *)

Definition swapi : string := "https://swapi.dev/api/".
Definition film_1 : string := swapi ++ "films/1/".
Definition people_1 : string := swapi ++ "people/1/".
Definition species_1 : string := swapi ++ "species/1/".

Definition empty_redis : Redis :=
  {| pending := ∅; completed := ∅; failed := ∅; strings := ∅ |}.

(** A scraper right after [__init__] (clock at 0), on an empty store. *)
Definition fresh_world : World :=
  {| redis := empty_redis;
     stats := {| start_time := 0; last_new_url_time := 0;
                 urls_scraped := 0; urls_failed := 0; errors := [] |};
     url_counter := 0;
     stop_event := false;
     trace := [];
     tick := 0 |}.

Definition http_503 : exn := Exn RequestException "503 Server Error: Service Unavailable".

Definition a_new_hope : json :=
  JObj [("title", JStr "A New Hope"); ("characters", JArr [JStr people_1])].

(** A server that answers 503 to the first three requests and 200 afterwards;
    Redis never fails; the clock shows the tick. *)
Definition three_503_then_ok : Env :=
  {| session_get := fun n _ =>
       if (n <? 3)%nat then Raises http_503 else Responds a_new_hope;
     time_time := fun n => inject_Z (Z.of_nat n);
     redis_fault := fun _ => None |}.

(** A server that always answers 503. *)
Definition always_503 : Env :=
  {| session_get := fun _ _ => Raises http_503;
     time_time := fun n => inject_Z (Z.of_nat n);
     redis_fault := fun _ => None |}.

(** A server whose 200 answers have a body that [response.json()] cannot
    decode, on a [requests] version where that raises a plain [ValueError]. *)
Definition malformed_body : Env :=
  {| session_get := fun _ _ =>
       Raises (Exn OtherException "Expecting value: line 1 column 1 (char 0)");
     time_time := fun n => inject_Z (Z.of_nat n);
     redis_fault := fun _ => None |}.

(** [scrape_url] called on each URL of a list in turn. *)
Definition fetch_all (env : Env) (self : Config) (urls : list string) (w : World)
  : World :=
  fold_left (fun w url => snd (scrape_url env self url w)) urls w.

(** A crawl under way: [film_1] is completed, [people_1] is pending. *)
Definition busy_world : World :=
  {| redis := {| pending := {[ people_1 := 210.002%Q ]};
                 completed := {[ film_1 ]};
                 failed := ∅;
                 strings := ∅ |};
     stats := {| start_time := 0; last_new_url_time := 7;
                 urls_scraped := 1; urls_failed := 0; errors := [] |};
     url_counter := 2;
     stop_event := false;
     trace := [];
     tick := 12 |}.

(** What an earlier run left behind in Redis. *)
Definition stale_world : World :=
  {| redis := {| pending := {[ species_1 := 510.007%Q ]};
                 completed := {[ film_1 ]};
                 failed := {[ people_1 ]};
                 strings :=
                   {[ (DATA_PREFIX ++ "films:1:")%string :=
                        {| sd_url := film_1; sd_scraped_at := 3; sd_data := a_new_hope |} ]} |};
     stats := {| start_time := 100; last_new_url_time := 100;
                 urls_scraped := 0; urls_failed := 0; errors := [] |};
     url_counter := 0;
     stop_event := false;
     trace := [];
     tick := 0 |}.

(** A server whose page for [film_1] links back to [film_1]. *)
Definition links_to_itself : Env :=
  {| session_get := fun _ _ =>
       Responds (JObj [("title", JStr "A New Hope"); ("films", JArr [JStr film_1])]);
     time_time := fun n => inject_Z (Z.of_nat n);
     redis_fault := fun _ => None |}.

(** A server that always answers 503 for [film_1]; its page for any other
    URL links to [film_1]. *)
Definition film_down_but_linked : Env :=
  {| session_get := fun _ url =>
       if String.eqb url film_1 then Raises http_503
       else Responds (JObj [("name", JStr "Luke Skywalker"); ("films", JArr [JStr film_1])]);
     time_time := fun n => inject_Z (Z.of_nat n);
     redis_fault := fun _ => None |}.

(** A server whose page lists a number where a URL is expected. *)
Definition number_in_url_list : Env :=
  {| session_get := fun _ _ =>
       Responds (JObj [("title", JStr "A New Hope"); ("characters", JArr [JInt 42])]);
     time_time := fun n => inject_Z (Z.of_nat n);
     redis_fault := fun _ => None |}.

(** Redis refuses every command. *)
Definition redis_down : Env :=
  {| session_get := fun _ _ => Responds a_new_hope;
     time_time := fun n => inject_Z (Z.of_nat n);
     redis_fault := fun _ => Some "Connection refused" |}.

(** The clock shows 31 seconds after the start of [fresh_world]. *)
Definition half_a_minute_later : Env :=
  {| session_get := fun _ _ => Responds a_new_hope;
     time_time := fun _ => 31%Q;
     redis_fault := fun _ => None |}.

(** [n] iterations of the worker loop. *)
Definition iterations (env : Env) (self : Config) (n : nat) (w : World) : World :=
  Nat.iter n (fun w => snd (worker_iteration env self w)) w.

(** A small site: the page of [film_1] links to two people, whose pages
    link to nothing new. *)
Definition people_2 : string := swapi ++ "people/2/".

Definition small_site : Env :=
  {| session_get := fun _ url =>
       if String.eqb url film_1
       then Responds (JObj [("title", JStr "A New Hope");
                            ("characters", JArr [JStr people_1; JStr people_2])])
       else Responds (JObj [("name", JStr "C-3PO"); ("films", JArr [JStr film_1])]);
     time_time := fun n => inject_Z (Z.of_nat n);
     redis_fault := fun _ => None |}.

(** ** Relations between the state before and after a computation *)

(** Every run of [m], whether it returns or raises, ends in a state that
    [R] relates to the state it started in. *)
Definition preserves {A} (R : World -> World -> Prop) (m : M A) : Prop :=
  forall w, R w (snd (m w)).

(** The relations that the scraper's elementary steps respect: a trace
    event, a tick of the environment, a Redis command that removes nothing
    from the completed and failed sets, the increment of the sequence
    counter, and an update of the statistics that keeps [start_time], does
    not decrease the two counters and only appends to the error log. *)
Class Progress (R : World -> World -> Prop) : Prop := {
  progress_refl : forall w, R w w;
  progress_trans : forall w1 w2 w3, R w1 w2 -> R w2 w3 -> R w1 w3;
  progress_emit : forall ev w, R w (emit ev w);
  progress_tick : forall w, R w (next_tick w);
  progress_redis : forall r w,
      completed (redis w) ⊆ completed r ->
      failed (redis w) ⊆ failed r ->
      R w (with_redis r w);
  progress_counter : forall w, R w (with_url_counter (url_counter w + 1) w);
  progress_stats : forall s w,
      start_time s = start_time (stats w) ->
      urls_scraped (stats w) <= urls_scraped s ->
      urls_failed (stats w) <= urls_failed s ->
      (exists more, errors s = (errors (stats w) ++ more)%list) ->
      R w (with_stats s w)
}.

(** The error log of [w'] is that of [w] followed by further entries. *)
Definition log_extends (w w' : World) : Prop :=
  exists more, errors (stats w') = (errors (stats w) ++ more)%list.

(** The stop signal is what it was. *)
Definition stop_unchanged (w w' : World) : Prop := stop_event w' = stop_event w.

(** What the [except Exception] handler of the worker loop does with [e]
    raised in state [w]: it logs, sleeps one second, and the loop goes on. *)
Definition handled (e : exn) (w : World) : Result Control * World :=
  (Ok Continue, emit (Sleep 1) (emit (Log ERROR (WorkerThreadError e)) w)).

(** The statements of the worker's [try] block that can raise and are not
    inside the handlers of [scrape_url] and [save_response_data]:
    [raises_in_try env self w e w'] says that the block, started in [w],
    raises [e] in state [w'] at one of them. *)
Inductive raises_in_try (env : Env) (self : Config) (w : World) (e : exn) (w' : World)
  : Prop :=
| raise_in_pop :
    zpopmin env w = (Raise e, w') ->
    raises_in_try env self w e w'
| raise_in_completed_check url score rest w1 :
    zpopmin env w = (Ok ((url, score) :: rest), w1) ->
    sismember env COMPLETED_SET url w1 = (Raise e, w') ->
    raises_in_try env self w e w'
| raise_in_failed_mark url score rest w1 w2 :
    zpopmin env w = (Ok ((url, score) :: rest), w1) ->
    sismember env COMPLETED_SET url w1 = (Ok false, w2) ->
    scrape_url env self url w2 = (Raise e, w') ->
    raises_in_try env self w e w'
| raise_in_extraction url score rest w1 w2 data w3 :
    zpopmin env w = (Ok ((url, score) :: rest), w1) ->
    sismember env COMPLETED_SET url w1 = (Ok false, w2) ->
    scrape_url env self url w2 = (Ok (Some data), w3) ->
    truthy data = true ->
    save_response_data env self url data w3 = (Ok tt, w') ->
    extract_urls_from_response self data = Raise e ->
    raises_in_try env self w e w'
| raise_in_enqueue url score rest w1 w2 data w3 w4 new_urls :
    zpopmin env w = (Ok ((url, score) :: rest), w1) ->
    sismember env COMPLETED_SET url w1 = (Ok false, w2) ->
    scrape_url env self url w2 = (Ok (Some data), w3) ->
    truthy data = true ->
    save_response_data env self url data w3 = (Ok tt, w4) ->
    extract_urls_from_response self data = Ok new_urls ->
    add_new_urls env self new_urls (current_depth score + 1) w4 = (Raise e, w') ->
    raises_in_try env self w e w'
| raise_in_completed_mark url score rest w1 w2 data w3 w4 new_urls new_count w5 :
    zpopmin env w = (Ok ((url, score) :: rest), w1) ->
    sismember env COMPLETED_SET url w1 = (Ok false, w2) ->
    scrape_url env self url w2 = (Ok (Some data), w3) ->
    truthy data = true ->
    save_response_data env self url data w3 = (Ok tt, w4) ->
    extract_urls_from_response self data = Ok new_urls ->
    add_new_urls env self new_urls (current_depth score + 1) w4 = (Ok new_count, w5) ->
    sadd env COMPLETED_SET url
      (if 0 <? new_count then emit (Log INFO (AddedNewUrls new_count url)) w5 else w5)
      = (Raise e, w') ->
    raises_in_try env self w e w'.

(** A world with entries already in the error log, and one pending URL. *)
Definition two_errors_logged : World :=
  {| redis := {| pending := {[ film_1 := 100.003%Q ]};
                 completed := ∅; failed := {[ people_1; species_1 ]}; strings := ∅ |};
     stats := {| start_time := 0; last_new_url_time := 0;
                 urls_scraped := 0; urls_failed := 2;
                 errors := [people_1 ++ ": 503 Server Error: Service Unavailable";
                            species_1 ++ ": 503 Server Error: Service Unavailable"] |};
     url_counter := 3;
     stop_event := false;
     trace := [];
     tick := 40 |}.

(** Redis fails at the command issued at tick [n], and only there; every
    page is [a_new_hope]. *)
Definition redis_fails_at (n : nat) : Env :=
  {| session_get := fun _ _ => Responds a_new_hope;
     time_time := fun k => inject_Z (Z.of_nat k);
     redis_fault := fun k => if Nat.eqb k n then Some "Connection reset" else None |}.

(** [fresh_world] with [film_1] as the only pending URL. *)
Definition one_pending : World :=
  with_redis {| pending := {[ film_1 := 100.001%Q ]};
                completed := ∅; failed := ∅; strings := ∅ |} fresh_world.

(** ** Further observations used by the properties of the scraper *)

(** Whether a character occurs in a string. *)
Fixpoint has_char (c : ascii) (s : string) : bool :=
  match s with
  | EmptyString => false
  | String c' s' => Ascii.eqb c' c || has_char c s'
  end.

(** The elements of the list-valued link fields of a payload, in the order
    of [url_fields]. *)
Definition linked (fields : list (string * json)) : list json :=
  concat (map (fun field =>
                 match dict_get field fields with
                 | Some (JArr items) => items
                 | _ => []
                 end) url_fields).

(** An element that the final list comprehension of
    [extract_urls_from_response] can handle: falsy, or a string. *)
Definition skippable_or_str (j : json) : Prop :=
  truthy j = false \/ exists s, j = JStr s.

(** The key under which [save_response_data] stores the page of [url]. *)
Definition data_key (self : Config) (url : string) : string :=
  DATA_PREFIX ++ replace "/" ":" (replace (root_url self) EmptyString url).

(** A server that answers 503 to the first two requests and 200 afterwards. *)
Definition two_503_then_ok : Env :=
  {| session_get := fun n _ =>
       if (n <? 2)%nat then Raises http_503 else Responds a_new_hope;
     time_time := fun n => inject_Z (Z.of_nat n);
     redis_fault := fun _ => None |}.

(** A server that answers every request with the empty JSON object. *)
Definition empty_pages : Env :=
  {| session_get := fun _ _ => Responds (JObj []);
     time_time := fun n => inject_Z (Z.of_nat n);
     redis_fault := fun _ => None |}.

(** What a worker never takes back: [w'] has at least the completed and
    failed URLs of [w], counters and statistics that are not smaller, the
    error log and the trace of [w] as prefixes of its own, and the stop
    signal set if it was set in [w]. *)
Definition grows (w w' : World) : Prop :=
  completed (redis w) ⊆ completed (redis w') /\
  failed (redis w) ⊆ failed (redis w') /\
  url_counter w <= url_counter w' /\
  urls_scraped (stats w) <= urls_scraped (stats w') /\
  urls_failed (stats w) <= urls_failed (stats w') /\
  start_time (stats w') = start_time (stats w) /\
  (exists more, errors (stats w') = (errors (stats w) ++ more)%list) /\
  (exists more, trace w' = (trace w ++ more)%list) /\
  (stop_event w = true -> stop_event w' = true) /\
  (tick w <= tick w')%nat.


(** ** The model at work *)

Example replace_all_occurrences : replace "ab" "x" "aababab" = "axxx".
Proof. reflexivity. Qed.

Example replace_empty_pattern : replace EmptyString "-" "abc" = "-a-b-c-".
Proof. reflexivity. Qed.

Example split_keeps_empty_fields : split "/" "films/1/" = ["films"; "1"; EmptyString].
Proof. reflexivity. Qed.

Example split_empty_string : split "/" EmptyString = [EmptyString].
Proof. reflexivity. Qed.

Example resource_type_of_film : resource_type swapi film_1 = "films".
Proof. reflexivity. Qed.

Example unknown_type_gets_priority_9 :
  type_priority "https://pokeapi.co/api/v2/pokemon/" "https://pokeapi.co/api/v2/pokemon/25" = 9.
Proof. reflexivity. Qed.

Example extract_keeps_urls_under_the_root :
  extract_urls_from_response (__init__ swapi)
    (JObj [("title", JStr "A New Hope");
           ("characters", JArr [JStr people_1; JStr EmptyString; JNull; JStr "https://example.org/x"]);
           ("planets", JStr "not a list");
           ("starships", JArr [JStr species_1])])
  = Ok [people_1; species_1].
Proof. reflexivity. Qed.

Example zpopmin_takes_the_lowest_score :
  fst (zpopmin always_503
         (with_redis {| pending := {[ people_1 := 200.002%Q; film_1 := 110.003%Q;
                                      species_1 := 500.001%Q ]};
                        completed := ∅; failed := ∅; strings := ∅ |} fresh_world))
  = Ok [(film_1, 110.003%Q)].
Proof. vm_compute. reflexivity. Qed.

(** A whole run on the small site: the three pages are completed, nothing
    fails, three records are stored, the queue is empty, and the idle
    timeout ends the run. *)
Example run_small_site :
  exists w,
    run small_site (__init__ swapi) 100 [film_1] fresh_world = Some (Ok tt, w) /\
    completed (redis w) = {[ film_1; people_1; people_2 ]} /\
    failed (redis w) = ∅ /\
    pending (redis w) = ∅ /\
    size (strings (redis w)) = 3%nat /\
    urls_scraped (stats w) = 3 /\
    stop_event w = true.
Proof.
  eexists. split; [vm_compute; reflexivity |].
  repeat split; vm_compute; reflexivity.
Qed.

(** What [extract_urls_from_response] raises on a payload that is a number,
    on a text that contains the name of a link field, and on a link list
    that holds a number. *)
Example extract_on_a_number :
  extract_urls_from_response (__init__ swapi) (JInt 7)
  = Raise (Exn TypeError "argument of type 'int' is not iterable").
Proof. reflexivity. Qed.

Example extract_on_a_text :
  extract_urls_from_response (__init__ swapi) (JStr "see films")
  = Raise (Exn TypeError "string indices must be integers, not 'str'").
Proof. reflexivity. Qed.

Example extract_on_a_number_in_a_link_list :
  extract_urls_from_response (__init__ swapi)
    (JObj [("films", JArr [JStr film_1; JFloat 1.5])])
  = Raise (Exn AttributeError "'float' object has no attribute 'startswith'").
Proof. reflexivity. Qed.
(** *** Arithmetic of the score digits *)

Lemma Qfloor_unique (x : Q) (z : Z) :
  (inject_Z z <= x)%Q -> (x < inject_Z (z + 1))%Q -> Qfloor x = z.
Proof.
  intros Hlo Hhi.
  assert (z <= Qfloor x).
  { rewrite <- (Qfloor_Z z). now apply Qfloor_resp_le. }
  assert (Qfloor x < z + 1).
  { rewrite Zlt_Qlt. eapply Qle_lt_trans; [apply Qfloor_le | exact Hhi]. }
  lia.
Qed.

Lemma int_of_float_Z (z : Z) : int_of_float (inject_Z z) = z.
Proof.
  unfold int_of_float.
  destruct (Qle_bool 0 (inject_Z z)); [apply Qfloor_Z | apply Qceiling_Z].
Qed.

Ltac inject_consts :=
  repeat match goal with
         | |- context [inject_Z (Zpos ?p)] => change (inject_Z (Zpos p)) with (Zpos p # 1)
         | H : context [inject_Z (Zpos ?p)] |- _ => change (inject_Z (Zpos p)) with (Zpos p # 1) in H
         end.

Lemma score_formula_millis tp d c :
  (score_formula tp d c == inject_Z (millis tp d c) * (1 # 1000))%Q.
Proof.
  unfold score_formula, millis.
  rewrite !inject_Z_plus, !inject_Z_mult. inject_consts. lra.
Qed.

Lemma Qfloor_scaled (n k : Z) (x : Q) :
  0 < k -> (x * inject_Z k == inject_Z n)%Q -> Qfloor x = n / k.
Proof.
  intros Hk Hx.
  pose proof (Z.div_mod n k ltac:(lia)) as Hdm.
  pose proof (Z.mod_pos_bound n k Hk) as [Hr0 Hr1].
  assert (Hn : (inject_Z n == inject_Z k * inject_Z (n / k) + inject_Z (n mod k))%Q).
  { rewrite <- inject_Z_mult, <- inject_Z_plus. now rewrite <- Hdm. }
  assert (Hk' : (inject_Z 0 < inject_Z k)%Q) by (now rewrite <- Zlt_Qlt).
  assert (Hr0' : (inject_Z 0 <= inject_Z (n mod k))%Q) by (now rewrite <- Zle_Qle).
  change (inject_Z 0) with 0%Q in Hk', Hr0'.
  assert (Hr1' : (inject_Z (n mod k) < inject_Z k)%Q) by (now rewrite <- Zlt_Qlt).
  apply Qfloor_unique.
  - apply (Qmult_le_r _ _ (inject_Z k) Hk'). rewrite Hx, Hn. lra.
  - apply (Qmult_lt_r _ _ (inject_Z k) Hk'). rewrite Hx, Hn.
    rewrite inject_Z_plus. inject_consts. lra.
Qed.

(** What the worker recovers from a score, for every priority, depth and
    counter: the ten-thousands digit of the score in thousandths. *)
Lemma current_depth_score tp d c :
  current_depth (score_formula tp d c) = (millis tp d c mod 100000) / 10000.
Proof.
  set (n := millis tp d c).
  pose proof (score_formula_millis tp d c) as Hs. fold n in Hs.
  unfold current_depth, float_floordiv. rewrite int_of_float_Z.
  assert (Hq : Qfloor (score_formula tp d c / 100) = n / 100000).
  { apply Qfloor_scaled; [lia |]. rewrite Hs. inject_consts. field. }
  apply Qfloor_scaled; [lia |].
  unfold float_mod. rewrite Hq, Hs.
  rewrite (Z.mod_eq n 100000) by lia.
  unfold Z.sub. rewrite inject_Z_plus, inject_Z_opp, inject_Z_mult.
  inject_consts. field.
Qed.

(** ** Properties of the scorer *)

Lemma score_formula_lt tp d c tp' d' c' :
  (score_formula tp d c < score_formula tp' d' c')%Q <-> millis tp d c < millis tp' d' c'.
Proof.
  rewrite !score_formula_millis, Zlt_Qlt.
  split; intros H; lra.
Qed.

Lemma type_priority_range root url : 1 <= type_priority root url <= 9.
Proof.
  unfold type_priority.
  destruct (type_priorities !! resource_type root url) as [p|] eqn:E; simpl; [| lia].
  apply elem_of_list_to_map_2 in E.
  repeat (apply elem_of_cons in E as [E | E]; [inversion E; lia |]).
  inversion E.
Qed.

Lemma type_priority_films root url :
  resource_type root url = "films" -> type_priority root url = 1.
Proof. unfold type_priority. intros ->. reflexivity. Qed.

Lemma type_priority_species root url :
  resource_type root url = "species" -> type_priority root url = 5.
Proof. unfold type_priority. intros ->. reflexivity. Qed.

Lemma calculate_url_score_eq self url depth w :
  _calculate_url_score self url depth w =
  (Ok (score_formula (type_priority (root_url self) url) depth (url_counter w + 1)),
   with_url_counter (url_counter w + 1) w).
Proof. reflexivity. Qed.

Lemma digit_recovered tp d c :
  0 <= tp -> 0 <= d <= 9 -> 0 <= c <= 9999 ->
  (millis tp d c mod 100000) / 10000 = d.
Proof.
  intros Htp Hd Hc. unfold millis.
  replace (tp * 100000 + d * 10000 + c) with (d * 10000 + c + tp * 100000) by lia.
  rewrite Z.mod_add by lia.
  rewrite Z.mod_small by lia.
  symmetry. apply (Z.div_unique _ _ d c); lia.
Qed.

(** C2 (counterexample).  A films URL enqueued at depth 10 gets the score
    200.001, from which the worker recovers depth 0, not 10. *)
Lemma current_depth_wraps_at_depth_10 :
  exists score w',
    _calculate_url_score (__init__ swapi) film_1 10 fresh_world = (Ok score, w') /\
    score = 200.001%Q /\
    current_depth score = 0 /\
    current_depth score <> 10.
Proof.
  eexists _, _. split; [reflexivity |].
  split; [reflexivity |]. split; [reflexivity | discriminate].
Qed.

(** C2 (amended).  For a depth between 0 and 9 and a sequence counter that
    stays below 10000, the depth the worker recovers from the score that
    [_calculate_url_score] returns is the depth the score was computed
    from, whatever the URL and its type priority. *)
Theorem current_depth_inverts_score :
  forall (self : Config) (url : string) (depth : Z) (w : World),
    0 <= depth <= 9 ->
    0 <= url_counter w < 9999 ->
    exists score w',
      _calculate_url_score self url depth w = (Ok score, w') /\
      score = score_formula (type_priority (root_url self) url) depth (url_counter w') /\
      url_counter w' = url_counter w + 1 /\
      current_depth score = depth.
Proof.
  intros self url depth w Hd Hc.
  rewrite calculate_url_score_eq. eexists _, _.
  split; [reflexivity |]. split; [reflexivity |]. split; [reflexivity |].
  rewrite current_depth_score.
  pose proof (type_priority_range (root_url self) url).
  apply digit_recovered; lia.
Qed.

(** C2 (amended) at depth 9, on a scraper that has not enqueued anything yet. *)
Lemma current_depth_inverts_score_witness :
  exists score w',
    _calculate_url_score (__init__ swapi) film_1 9 fresh_world = (Ok score, w') /\
    score = score_formula (type_priority swapi film_1) 9 (url_counter w') /\
    url_counter w' = 1 /\
    current_depth score = 9.
Proof.
  apply (current_depth_inverts_score (__init__ swapi) film_1 9 fresh_world);
    simpl; lia.
Defined.

(** *** Cross-check in binary64

    At the inputs of the examples, and at both ends of the counter range
    for every priority of the table and every depth 0..9, double-precision
    evaluation gives what the exact model gives. *)

Lemma binary64_depth_10 :
  Binary64.current_depth (Binary64.score 1 10 1) = 0 /\
  current_depth (score_formula 1 10 1) = 0.
Proof. split; vm_compute; reflexivity. Qed.

Lemma binary64_recovers_digit_depths :
  forallb (fun tp =>
    forallb (fun d =>
      forallb (fun c =>
        Z.eqb (Binary64.current_depth (Binary64.score tp d c)) d &&
        Z.eqb (current_depth (score_formula tp d c)) d)
      counter_ends) digit_depths) table_priorities = true.
Proof. vm_compute. reflexivity. Qed.

(** *** The order of the scores as doubles, on the whole sequence range *)

Lemma elem_of_upfrom n : forall start c,
  start <= c < start + Z.of_nat n -> In c (upfrom n start).
Proof.
  induction n as [| n IH]; intros start c Hc; [lia |].
  cbn [upfrom]. destruct (Z.eq_dec start c) as [-> | Hne]; [now left |].
  right. apply IH. lia.
Qed.

Lemma in_sequence_range_list c : in_sequence_range c -> In c sequence_range.
Proof.
  intros Hc. apply elem_of_upfrom. unfold in_sequence_range in Hc.
  rewrite Z2Nat.id; lia.
Qed.

Lemma type_priority_in_table root url : In (type_priority root url) table_priorities.
Proof.
  unfold type_priority.
  destruct (type_priorities !! resource_type root url) as [p|] eqn:E; simpl;
    [| repeat (first [now left | right])].
  apply elem_of_list_to_map_2 in E.
  repeat (apply elem_of_cons in E as [E | E];
          [inversion E; repeat (first [now left | right]) |]).
  inversion E.
Qed.

(** [<] on doubles is transitive. *)
Lemma ltb_trans x y z :
  Binary64.ltb x y = true -> Binary64.ltb y z = true -> Binary64.ltb x z = true.
Proof.
  unfold Binary64.ltb, SFltb, SFcompare.
  destruct x as [sx | sx | | sx mx ex], y as [s | s | | s m e],
           z as [sz | sz | | sz mz ez];
    try destruct sx; try destruct sz; try destruct s;
    try discriminate; try reflexivity.
  all: fold (Pos.compare mx m); fold (Pos.compare m mz); fold (Pos.compare mx mz).
  all: destruct (Z.compare_spec ex e), (Z.compare_spec e ez); try discriminate;
    destruct (Z.compare_spec ex ez); try reflexivity; try lia.
  all: destruct (Pos.compare_spec mx m), (Pos.compare_spec m mz); try discriminate;
    destruct (Pos.compare_spec mx mz); simpl; try reflexivity; try lia; try discriminate.
Qed.

(** For every priority of the table and every counter value of the
    sequence range, the double [type_priority * 100] is below the score at
    depth 0, which is below the double [type_priority * 100 + 10], which is
    below the score at depth 1.  The products [counter * 0.001] are
    computed once and shared by the priorities. *)
Lemma binary64_depth_step_separates :
  (let terms :=
     map (fun c => Binary64.mul (Binary64.of_int c) Binary64.lit_0_001) sequence_range in
   forallb (fun tp =>
     let lo := Binary64.of_int (tp * 100 + 0 * 10) in
     let hi := Binary64.of_int (tp * 100 + 1 * 10) in
     forallb (fun term =>
       let s0 := Binary64.add lo term in
       Binary64.ltb lo s0 && Binary64.ltb s0 hi && Binary64.ltb hi (Binary64.add hi term))
       terms)
     table_priorities) = true.
Proof. vm_compute. reflexivity. Qed.

Lemma binary64_score_between tp c :
  In tp table_priorities -> in_sequence_range c ->
  Binary64.ltb (Binary64.of_int (tp * 100 + 0 * 10)) (Binary64.score tp 0 c) = true /\
  Binary64.ltb (Binary64.score tp 0 c) (Binary64.of_int (tp * 100 + 1 * 10)) = true /\
  Binary64.ltb (Binary64.of_int (tp * 100 + 1 * 10)) (Binary64.score tp 1 c) = true.
Proof.
  intros Htp Hc.
  pose proof binary64_depth_step_separates as H. cbv zeta in H.
  rewrite forallb_forall in H. specialize (H tp Htp).
  rewrite forallb_forall in H.
  specialize (H (Binary64.mul (Binary64.of_int c) Binary64.lit_0_001)
                (in_map _ _ _ (in_sequence_range_list c Hc))).
  apply andb_true_iff in H as [H H2]. apply andb_true_iff in H as [H0 H1].
  split; [exact H0 |]. split; [exact H1 | exact H2].
Qed.

Lemma binary64_depth_order tp c c' :
  In tp table_priorities -> in_sequence_range c -> in_sequence_range c' ->
  Binary64.ltb (Binary64.score tp 0 c) (Binary64.score tp 1 c') = true.
Proof.
  intros Htp Hc Hc'.
  destruct (binary64_score_between tp c Htp Hc) as (_ & H0 & _).
  destruct (binary64_score_between tp c' Htp Hc') as (_ & _ & H1).
  eapply ltb_trans; eassumption.
Qed.

Lemma binary64_type_order s1 s2 :
  in_sequence_range s1 -> in_sequence_range s2 ->
  Binary64.ltb (Binary64.score 1 0 s1) (Binary64.score 5 0 s2) = true.
Proof.
  intros H1 H2.
  destruct (binary64_score_between 1 s1) as (_ & Ha & _);
    [now left | exact H1 |].
  destruct (binary64_score_between 5 s2) as (Hb & _ & _);
    [do 4 right; now left | exact H2 |].
  eapply ltb_trans; [exact Ha |].
  eapply ltb_trans; [| exact Hb].
  vm_compute. reflexivity.
Qed.

(** The range cannot be dropped from the statement below: nothing bounds
    the counter, and a seed list of more than 400000 URLs that starts with
    a species URL and ends with a films URL scores the films URL above the
    species URL, in exact arithmetic and as doubles. *)
Lemma sequence_term_outside_range :
  ~ (score_formula 1 0 400002 < score_formula 5 0 1)%Q /\
  Binary64.ltb (Binary64.score 1 0 400002) (Binary64.score 5 0 1) = false /\
  Binary64.ltb (Binary64.score 5 0 1) (Binary64.score 1 0 400002) = true.
Proof.
  split; [intros H; vm_compute in H; discriminate |].
  split; vm_compute; reflexivity.
Qed.

(** C3.  On the sequence range (counter values 1..9999, the values whose
    term [counter * 0.001] stays below the weight 10 of a depth step):
    for one and the same URL, hence one resource type, the score that
    [_calculate_url_score] returns at depth 0 is strictly below the score it
    returns at depth 1, whatever the two counter values; and the score of a
    films URL at depth 0 is strictly below the score of a species URL at
    depth 0, whatever the two counter values.  Both orders hold for the
    exact values of the formula and for the doubles that Python computes,
    so within that range the sequence term overflows neither the depth
    nor the type. *)
Theorem score_orders_depth_then_type :
  forall (self : Config) (url film species : string) (w0 w1 wf ws : World),
    resource_type (root_url self) film = "films" ->
    resource_type (root_url self) species = "species" ->
    0 <= url_counter w0 < 9999 ->
    0 <= url_counter w1 < 9999 ->
    0 <= url_counter wf < 9999 ->
    0 <= url_counter ws < 9999 ->
    exists s0 s1 sf ss,
      fst (_calculate_url_score self url 0 w0) = Ok s0 /\
      fst (_calculate_url_score self url 1 w1) = Ok s1 /\
      fst (_calculate_url_score self film 0 wf) = Ok sf /\
      fst (_calculate_url_score self species 0 ws) = Ok ss /\
      (s0 < s1)%Q /\
      (sf < ss)%Q /\
      Binary64.ltb (score_as_double self url 0 w0) (score_as_double self url 1 w1) = true /\
      Binary64.ltb (score_as_double self film 0 wf) (score_as_double self species 0 ws) = true.
Proof.
  intros self url film species w0 w1 wf ws Hf Hs H0 H1 Hwf Hws.
  rewrite !calculate_url_score_eq. eexists _, _, _, _.
  repeat (split; [reflexivity |]).
  unfold score_as_double.
  rewrite (type_priority_films _ _ Hf), (type_priority_species _ _ Hs).
  split; [rewrite score_formula_lt; unfold millis; lia |].
  split; [rewrite score_formula_lt; unfold millis; lia |].
  split.
  - apply binary64_depth_order;
      [apply type_priority_in_table | unfold in_sequence_range; lia ..].
  - apply binary64_type_order; unfold in_sequence_range; lia.
Qed.

(** C3 at the ends of the sequence range: the depth-0 scores carry the last
    counter value 9999, the scores they are compared with the first one. *)
Lemma score_orders_depth_then_type_witness :
  exists s0 s1 sf ss,
    fst (_calculate_url_score (__init__ swapi) people_1 0
           (with_url_counter 9998 fresh_world)) = Ok s0 /\
    fst (_calculate_url_score (__init__ swapi) people_1 1 fresh_world) = Ok s1 /\
    fst (_calculate_url_score (__init__ swapi) film_1 0
           (with_url_counter 9998 fresh_world)) = Ok sf /\
    fst (_calculate_url_score (__init__ swapi) species_1 0 fresh_world) = Ok ss /\
    (s0 < s1)%Q /\
    (sf < ss)%Q /\
    Binary64.ltb (score_as_double (__init__ swapi) people_1 0 (with_url_counter 9998 fresh_world))
                 (score_as_double (__init__ swapi) people_1 1 fresh_world) = true /\
    Binary64.ltb (score_as_double (__init__ swapi) film_1 0 (with_url_counter 9998 fresh_world))
                 (score_as_double (__init__ swapi) species_1 0 fresh_world) = true.
Proof.
  apply (score_orders_depth_then_type (__init__ swapi) people_1 film_1 species_1
           (with_url_counter 9998 fresh_world) fresh_world
           (with_url_counter 9998 fresh_world) fresh_world);
    [reflexivity | reflexivity | simpl; lia ..].
Defined.

(** ** What every step of the scraper respects

    For a relation [R] of class [Progress], every method of the scraper
    relates the state it ends in to the state it started in, whether it
    returns or raises. *)

Section Preservation.

Context (R : World -> World -> Prop) `{!Progress R}.
Variable env : Env.
Variable self : Config.

Lemma preserves_ret {A} (a : A) : preserves R (ret a).
Proof. intros w. apply progress_refl. Qed.

Lemma preserves_lift {A} (r : Result A) : preserves R (lift r).
Proof. intros w. apply progress_refl. Qed.

Lemma preserves_gets {A} (f : World -> A) : preserves R (gets f).
Proof. intros w. apply progress_refl. Qed.

Lemma preserves_bind {A B} (m : M A) (k : A -> M B) :
  preserves R m -> (forall a, preserves R (k a)) -> preserves R (bind m k).
Proof.
  intros Hm Hk w. unfold bind. specialize (Hm w).
  destruct (m w) as [[a | e] w1]; [| exact Hm].
  eapply progress_trans; [exact Hm | apply Hk].
Qed.

Lemma preserves_try_except {A} (body : M A) (handler : exn -> M A) :
  preserves R body -> (forall e, preserves R (handler e)) ->
  preserves R (try_except body handler).
Proof.
  intros Hb Hh w. unfold try_except. specialize (Hb w).
  destruct (body w) as [[a | e] w1]; [exact Hb |].
  eapply progress_trans; [exact Hb | apply Hh].
Qed.

Lemma preserves_modify (f : World -> World) :
  (forall w, R w (f w)) -> preserves R (modify f).
Proof. intros H w. apply H. Qed.

Lemma preserves_for_fold {A B} (body : B -> A -> M B) (xs : list A) :
  (forall b a, preserves R (body b a)) -> forall acc, preserves R (for_fold xs acc body).
Proof.
  intros Hb. induction xs as [| x xs IH]; intros acc; cbn [for_fold].
  - apply preserves_ret.
  - apply preserves_bind; [apply Hb | intros b; apply IH].
Qed.

Lemma preserves_for_each {A} (body : A -> M unit) (xs : list A) :
  (forall a, preserves R (body a)) -> preserves R (for_each xs body).
Proof.
  intros Hb. induction xs as [| x xs IH]; cbn [for_each].
  - apply preserves_ret.
  - apply preserves_bind; [apply Hb | intros _; apply IH].
Qed.

Lemma preserves_sleep q : preserves R (sleep q).
Proof. apply preserves_modify, progress_emit. Qed.

Lemma preserves_logger l r : preserves R (logger l r).
Proof. apply preserves_modify, progress_emit. Qed.

Lemma preserves_time_now : preserves R (time_now env).
Proof. intros w. apply progress_tick. Qed.

Lemma preserves_http_get url : preserves R (http_get env url).
Proof.
  intros w. unfold http_get. cbn [snd].
  eapply progress_trans; [apply progress_emit | apply progress_tick].
Qed.

(** A Redis command that removes nothing from the completed and failed sets. *)
Lemma preserves_redis_client {A} (command : Redis -> A * Redis) :
  (forall r, completed r ⊆ completed (snd (command r)) /\
             failed r ⊆ failed (snd (command r))) ->
  preserves R (redis_client env command).
Proof.
  intros H w. unfold redis_client.
  destruct (redis_fault env (tick w)); [apply progress_tick |].
  specialize (H (redis w)). destruct (command (redis w)) as [a r]. cbn in H.
  destruct H as [Hc Hf]. cbn [snd].
  eapply progress_trans; [apply progress_tick |].
  apply progress_redis; assumption.
Qed.

Lemma preserves_zpopmin : preserves R (zpopmin env).
Proof.
  apply preserves_redis_client. intros r.
  destruct (zset_min (pending r)) as [[url score] |]; cbn; split; reflexivity.
Qed.

Lemma preserves_sismember key url : preserves R (sismember env key url).
Proof. apply preserves_redis_client. intros r. cbn. split; reflexivity. Qed.

Lemma preserves_sadd key url : preserves R (sadd env key url).
Proof.
  apply preserves_redis_client. intros r.
  destruct key; cbn; split; first [reflexivity | apply union_subseteq_r].
Qed.

Lemma preserves_zscore url : preserves R (zscore env url).
Proof. apply preserves_redis_client. intros r. cbn. split; reflexivity. Qed.

Lemma preserves_zadd url score : preserves R (zadd env url score).
Proof. apply preserves_redis_client. intros r. cbn. split; reflexivity. Qed.

Lemma preserves_redis_set key value : preserves R (redis_set env key value).
Proof. apply preserves_redis_client. intros r. cbn. split; reflexivity. Qed.

Lemma preserves_calculate_url_score url depth :
  preserves R (_calculate_url_score self url depth).
Proof.
  unfold _calculate_url_score.
  apply preserves_bind; [apply preserves_modify, progress_counter | intros _].
  apply preserves_bind; [apply preserves_gets | intros c; apply preserves_ret].
Qed.

Ltac stats_update :=
  apply preserves_modify; intros w; apply progress_stats; cbn;
  [reflexivity | lia | lia |
   first [exists []; now rewrite app_nil_r | eexists; reflexivity]].

Lemma preserves_add_new_urls urls depth : preserves R (add_new_urls env self urls depth).
Proof.
  unfold add_new_urls.
  apply preserves_bind.
  - apply preserves_for_fold. intros count url. unfold add_new_url.
    apply preserves_bind; [apply preserves_sismember | intros b].
    apply preserves_bind; [apply preserves_zscore | intros s].
    destruct (negb b && negb _); [| apply preserves_ret].
    apply preserves_bind; [apply preserves_calculate_url_score | intros sc].
    apply preserves_bind; [apply preserves_zadd | intros _; apply preserves_ret].
  - intros n. apply preserves_bind; [| intros _; apply preserves_ret].
    destruct (0 <? n); [| apply preserves_ret].
    apply preserves_bind; [apply preserves_time_now | intros t].
    unfold touch_last_new_url_time. stats_update.
Qed.

Lemma preserves_scrape_attempts url : forall n attempt,
  preserves R (scrape_attempts env self n attempt url).
Proof.
  induction n as [| n IH]; intros attempt; cbn [scrape_attempts]; [apply preserves_ret |].
  apply preserves_bind; [apply preserves_sleep | intros _].
  apply preserves_bind; [apply preserves_http_get | intros [data | e]].
  - apply preserves_bind; [apply preserves_logger | intros _].
    apply preserves_bind; [unfold count_scraped; stats_update | intros _].
    apply preserves_ret.
  - destruct (is_RequestException e).
    + apply preserves_bind; [apply preserves_logger | intros _].
      destruct (attempt <? max_retries self - 1).
      * apply preserves_bind; [apply preserves_sleep | intros _; apply IH].
      * apply preserves_bind; [apply preserves_logger | intros _].
        apply preserves_bind; [unfold count_failed; stats_update | intros _].
        apply preserves_bind; [apply preserves_sadd | intros _; apply preserves_ret].
    + apply preserves_bind; [apply preserves_logger | intros _].
      apply preserves_bind; [unfold append_error; stats_update | intros _].
      apply preserves_ret.
Qed.

Lemma preserves_scrape_url url : preserves R (scrape_url env self url).
Proof. apply preserves_scrape_attempts. Qed.

Lemma preserves_save_response_data url data :
  preserves R (save_response_data env self url data).
Proof.
  unfold save_response_data. apply preserves_try_except.
  - apply preserves_bind; [apply preserves_time_now | intros t; apply preserves_redis_set].
  - intros e. apply preserves_logger.
Qed.

(** The [try] block respects [R] on every path but the [break] of the
    idle check, which sets the stop signal. *)
Lemma worker_try_preserves w r w' :
  worker_try env self w = (r, w') -> r <> Ok Break -> R w w'.
Proof.
  unfold worker_try. unfold bind at 1.
  pose proof (preserves_zpopmin w) as Hpop.
  destruct (zpopmin env w) as [[[| [url score] rest] | e] w1]; cbn [snd] in Hpop.
  - unfold bind, time_now, gets, logger, sleep, modify, ret.
    destruct (Qlt_bool _ _); intros H Hr; inversion H; subst; [congruence |].
    eapply progress_trans; [exact Hpop |].
    eapply progress_trans; [apply progress_tick | apply progress_emit].
  - intros H _.
    match type of H with
    | ?m w1 = _ => assert (Hm : preserves R m)
    end.
    { apply preserves_bind; [apply preserves_sismember | intros [|]];
        [apply preserves_ret |].
      apply preserves_bind; [apply preserves_scrape_url | intros [data |]];
        [| apply preserves_ret].
      destruct (truthy data); [| apply preserves_ret].
      apply preserves_bind; [apply preserves_save_response_data | intros _].
      apply preserves_bind; [apply preserves_lift | intros new_urls].
      apply preserves_bind; [apply preserves_add_new_urls | intros n].
      apply preserves_bind;
        [destruct (0 <? n); [apply preserves_logger | apply preserves_ret] | intros _].
      apply preserves_bind; [apply preserves_sadd | intros _; apply preserves_ret]. }
    specialize (Hm w1). rewrite H in Hm.
    eapply progress_trans; [exact Hpop | exact Hm].
  - intros H _. inversion H; subst. exact Hpop.
Qed.

(** The same for a whole iteration, handler included. *)
Lemma worker_iteration_preserves w c w' :
  worker_iteration env self w = (Ok c, w') -> c <> Break -> R w w'.
Proof.
  unfold worker_iteration, try_except.
  destruct (worker_try env self w) as [[c1 | e] w1] eqn:E.
  - intros H Hc. inversion H; subst.
    apply (worker_try_preserves _ _ _ E). congruence.
  - unfold bind, logger, sleep, modify, ret. intros H _. inversion H; subst.
    eapply progress_trans; [apply (worker_try_preserves _ _ _ E); discriminate |].
    eapply progress_trans; apply progress_emit.
Qed.

Section WithStop.

(** Relations that also admit the setting of the stop signal. *)
Hypothesis progress_stop : forall w, R w (with_stop_event true w).

Lemma preserves_worker_iteration : preserves R (worker_iteration env self).
Proof.
  intros w.
  destruct (worker_iteration env self w) as [[[|] | e] w'] eqn:E; cbn [snd].
  - apply (worker_iteration_preserves _ _ _ E). discriminate.
  - revert E. unfold worker_iteration, try_except.
    destruct (worker_try env self w) as [[c1 | e] w1] eqn:Et;
      [| unfold bind, logger, sleep, modify, ret; discriminate].
    intros H. inversion H; subst. clear H. revert Et.
    unfold worker_try. unfold bind at 1.
    pose proof (preserves_zpopmin w) as Hpop.
    destruct (zpopmin env w) as [[[| [url score] rest] | e] w1]; cbn [snd] in Hpop;
      [| | discriminate].
    + unfold bind, time_now, gets, logger, sleep, modify, ret.
      destruct (Qlt_bool _ _); intros H; inversion H; subst.
      eapply progress_trans; [exact Hpop |].
      eapply progress_trans; [apply progress_tick |].
      eapply progress_trans; [apply progress_emit | apply progress_stop].
    + intros H. exfalso. revert H.
      unfold bind at 1.
      destruct (sismember env COMPLETED_SET url w1) as [[[] | e] w2]; try discriminate.
      unfold bind at 1.
      destruct (scrape_url env self url w2) as [[[data |] | e] w3]; try discriminate.
      destruct (truthy data); [| discriminate].
      unfold bind at 1.
      destruct (save_response_data env self url data w3) as [[[] | e] w4]; [| discriminate].
      unfold bind at 1, lift.
      destruct (extract_urls_from_response self data) as [new_urls | e]; [| discriminate].
      unfold bind at 1.
      destruct (add_new_urls env self new_urls _ w4) as [[n | e] w5]; [| discriminate].
      unfold bind at 1.
      destruct (0 <? n); unfold logger, modify, ret;
        unfold bind;
        match goal with
        | |- context [sadd env COMPLETED_SET url ?w0] =>
            destruct (sadd env COMPLETED_SET url w0) as [[[] | e] w6]; discriminate
        end.
  - exfalso. revert E. unfold worker_iteration, try_except.
    destruct (worker_try env self w) as [[c1 | e1] w1]; [discriminate |].
    unfold bind, logger, sleep, modify, ret. discriminate.
Qed.

Lemma worker_loop_preserves fuel : forall w w',
  worker_loop env self fuel w = Some w' -> R w w'.
Proof.
  induction fuel as [| fuel IH]; intros w w'; cbn [worker_loop];
    destruct (stop_event w).
  - intros H. inversion H. apply progress_refl.
  - discriminate.
  - intros H. inversion H. apply progress_refl.
  - pose proof (preserves_worker_iteration w) as Hstep.
    destruct (worker_iteration env self w) as [[[|] | e] w1]; cbn [snd] in Hstep.
    + intros H. eapply progress_trans; [exact Hstep | now apply IH].
    + intros H. inversion H. now subst.
    + intros H. inversion H. now subst.
Qed.

Lemma worker_thread_preserves fuel w w' :
  worker_thread env self fuel w = Some w' -> R w w'.
Proof.
  unfold worker_thread.
  destruct (worker_loop env self fuel (emit (Log INFO WorkerStarted) w)) as [w1 |] eqn:E;
    [| discriminate].
  intros H. inversion H. subst.
  eapply progress_trans; [apply progress_emit |].
  eapply progress_trans; [eapply worker_loop_preserves, E | apply progress_emit].
Qed.

(** Relations that admit every Redis command, deletions included. *)
Hypothesis progress_any_redis : forall r w, R w (with_redis r w).

Lemma preserves_any_redis_client {A} (command : Redis -> A * Redis) :
  preserves R (redis_client env command).
Proof.
  intros w. unfold redis_client.
  destruct (redis_fault env (tick w)); [apply progress_tick |].
  destruct (command (redis w)) as [a r]. cbn [snd].
  eapply progress_trans; [apply progress_tick | apply progress_any_redis].
Qed.

Lemma preserves_initialize_redis seed_urls :
  preserves R (initialize_redis env self seed_urls).
Proof.
  unfold initialize_redis.
  apply preserves_bind; [apply preserves_logger | intros _].
  apply preserves_bind; [apply preserves_any_redis_client | intros _].
  apply preserves_bind; [apply preserves_any_redis_client | intros keys].
  apply preserves_bind;
    [apply preserves_for_each; intros key; apply preserves_any_redis_client | intros _].
  apply preserves_bind; [| intros n; apply preserves_logger].
  apply preserves_for_fold. intros n url. unfold add_seed_url.
  apply preserves_bind; [apply preserves_calculate_url_score | intros score].
  apply preserves_bind; [apply preserves_zadd | intros _; apply preserves_ret].
Qed.

Lemma run_preserves fuel seed_urls w r w' :
  run env self fuel seed_urls w = Some (r, w') -> R w w'.
Proof.
  unfold run.
  pose proof (preserves_initialize_redis seed_urls w) as Hinit.
  destruct (initialize_redis env self seed_urls w) as [[[] | e] w1]; cbn [snd] in Hinit.
  - destruct (worker_thread env self fuel w1) as [w2 |] eqn:E; [| discriminate].
    intros H. inversion H; subst.
    eapply progress_trans; [exact Hinit | eapply worker_thread_preserves, E].
  - intros H. inversion H; subst. exact Hinit.
Qed.

End WithStop.

End Preservation.

#[local] Instance log_extends_progress : Progress log_extends.
Proof.
  split; unfold log_extends.
  - intros w. exists []. now rewrite app_nil_r.
  - intros w1 w2 w3 [m1 H1] [m2 H2]. exists (m1 ++ m2)%list.
    now rewrite H2, H1, app_assoc.
  - intros ev w. exists []. cbn. now rewrite app_nil_r.
  - intros w. exists []. cbn. now rewrite app_nil_r.
  - intros r w _ _. exists []. cbn. now rewrite app_nil_r.
  - intros w. exists []. cbn. now rewrite app_nil_r.
  - intros s w _ _ _ H. exact H.
Qed.

#[local] Instance stop_unchanged_progress : Progress stop_unchanged.
Proof.
  split; unfold stop_unchanged; try reflexivity.
  intros w1 w2 w3 H1 H2. congruence.
Qed.

(** ** Properties of the fetch loop *)

Section Fetch.

Variable env : Env.
Variable self : Config.

Lemma scrape_attempts_success n attempt url w data :
  session_get env (tick w) url = Responds data ->
  scrape_attempts env self (S n) attempt url w =
  (Ok (Some data),
   snd (count_scraped (emit (Log INFO (SuccessfullyScraped url)) (attempted self url w)))).
Proof.
  intros H. cbn [scrape_attempts]. unfold bind, sleep, logger, modify, http_get.
  cbn [emit tick]. rewrite H. reflexivity.
Qed.

Lemma scrape_attempts_unexpected n attempt url w e :
  session_get env (tick w) url = Raises e ->
  is_RequestException e = false ->
  scrape_attempts env self (S n) attempt url w =
  (Ok None,
   snd (append_error (url ++ ": " ++ exn_str e)
          (emit (Log ERROR (UnexpectedError url e)) (attempted self url w)))).
Proof.
  intros H He. cbn [scrape_attempts]. unfold bind, sleep, logger, modify, http_get.
  cbn [emit tick]. rewrite H, He. reflexivity.
Qed.

Lemma scrape_attempts_retry n attempt url w e :
  session_get env (tick w) url = Raises e ->
  is_RequestException e = true ->
  attempt < max_retries self - 1 ->
  scrape_attempts env self (S n) attempt url w =
  scrape_attempts env self n (attempt + 1) url
    (emit (Sleep (backoff_factor self ^ attempt))
       (emit (Log WARNING (AttemptFailed (attempt + 1) url e (backoff_factor self ^ attempt)))
          (attempted self url w))).
Proof.
  intros H He Hlt. apply Z.ltb_lt in Hlt.
  cbn [scrape_attempts]. unfold bind at 1 2 3 4, sleep, logger, modify, http_get.
  cbn [emit tick]. rewrite H, He, Hlt. reflexivity.
Qed.

Lemma scrape_attempts_exhausted n attempt url w e :
  session_get env (tick w) url = Raises e ->
  is_RequestException e = true ->
  ~ attempt < max_retries self - 1 ->
  scrape_attempts env self (S n) attempt url w =
  (do sadd env FAILED_SET url ;; ret None)
    (snd (count_failed (url ++ ": " ++ exn_str e)
            (emit (Log ERROR (FailedToScrape url (max_retries self)))
               (emit (Log WARNING (AttemptFailed (attempt + 1) url e
                                     (backoff_factor self ^ attempt)))
                  (attempted self url w))))).
Proof.
  intros H He Hlt. apply Z.ltb_nlt in Hlt.
  cbn [scrape_attempts]. unfold bind at 1 2 3 4 5, sleep, logger, modify, http_get.
  cbn [emit tick]. rewrite H, He, Hlt. reflexivity.
Qed.

Lemma requests_made_app t t' :
  requests_made (t ++ t') = (requests_made t + requests_made t')%nat.
Proof.
  induction t as [| ev t IH]; [reflexivity |].
  destruct ev; simpl; rewrite IH; reflexivity.
Qed.

Lemma trace_sadd key url w : trace (snd (sadd env key url w)) = trace w.
Proof.
  unfold sadd, redis_client. destruct (redis_fault env (tick w)); reflexivity.
Qed.

(** Whatever the server answers, [n] remaining iterations send at most [n]
    requests. *)
Lemma scrape_attempts_requests n : forall attempt url w,
  (requests_made (trace (snd (scrape_attempts env self n attempt url w)))
   <= requests_made (trace w) + n)%nat.
Proof.
  induction n as [| n IH]; intros attempt url w; [simpl; lia |].
  destruct (session_get env (tick w) url) as [data | e] eqn:Hget.
  - rewrite (scrape_attempts_success _ _ _ _ _ Hget). simpl.
    rewrite !requests_made_app. simpl. lia.
  - destruct (is_RequestException e) eqn:He.
    + destruct (Z_lt_dec attempt (max_retries self - 1)) as [Hlt | Hge].
      * rewrite (scrape_attempts_retry _ _ _ _ _ Hget He Hlt).
        etransitivity; [apply IH |]. simpl.
        rewrite !requests_made_app. simpl. lia.
      * rewrite (scrape_attempts_exhausted _ _ _ _ _ Hget He Hge).
        unfold bind.
        match goal with
        | |- context [sadd env FAILED_SET url ?w0] =>
            pose proof (trace_sadd FAILED_SET url w0) as Ht;
            destruct (sadd env FAILED_SET url w0) as [[[] | e0] w1]
        end; simpl in Ht |- *; rewrite Ht; simpl;
          rewrite !requests_made_app; simpl; lia.
    + rewrite (scrape_attempts_unexpected _ _ _ _ _ Hget He). simpl.
      rewrite !requests_made_app. simpl. lia.
Qed.

Lemma polite_after_wait delay wait seg :
  polite delay seg -> polite delay (Sleep wait :: seg).
Proof. destruct seg as [| [d | u | l r] seg]; simpl; tauto. Qed.

(** Whatever the server answers, every request that the loop sends comes
    right after the politeness delay. *)
Lemma scrape_attempts_polite n : forall attempt url w,
  exists seg,
    trace (snd (scrape_attempts env self n attempt url w)) = (trace w ++ seg)%list /\
    polite (request_delay self) seg.
Proof.
  induction n as [| n IH]; intros attempt url w.
  { exists []. split; [simpl; now rewrite app_nil_r | exact I]. }
  destruct (session_get env (tick w) url) as [data | e] eqn:Hget.
  - rewrite (scrape_attempts_success _ _ _ _ _ Hget). simpl.
    eexists. rewrite <- !app_assoc. split; [reflexivity |]. simpl. tauto.
  - destruct (is_RequestException e) eqn:He.
    + destruct (Z_lt_dec attempt (max_retries self - 1)) as [Hlt | Hge].
      * rewrite (scrape_attempts_retry _ _ _ _ _ Hget He Hlt).
        match goal with
        | |- context [scrape_attempts env self n ?a url ?w0] =>
            destruct (IH a url w0) as (seg & Htr & Hpol)
        end.
        rewrite Htr. simpl. rewrite <- !app_assoc.
        eexists. split; [reflexivity |]. simpl. split; [reflexivity |].
        now apply polite_after_wait.
      * rewrite (scrape_attempts_exhausted _ _ _ _ _ Hget He Hge).
        unfold bind.
        match goal with
        | |- context [sadd env FAILED_SET url ?w0] =>
            pose proof (trace_sadd FAILED_SET url w0) as Ht;
            destruct (sadd env FAILED_SET url w0) as [[[] | e0] w1]
        end; simpl in Ht |- *; rewrite Ht; simpl; rewrite <- !app_assoc;
          (eexists; split; [reflexivity |]; simpl; tauto).
    + rewrite (scrape_attempts_unexpected _ _ _ _ _ Hget He). simpl.
      eexists. rewrite <- !app_assoc. split; [reflexivity |]. simpl. tauto.
Qed.

End Fetch.

(** Three attempts that all raise a [RequestException], with [max_retries = 3]. *)
Lemma scrape_url_exhausted (env : Env) (self : Config) (url : string) (w : World) :
  max_retries self = 3 ->
  (forall e1 e2 e3,
        session_get env (tick w) url = Raises e1 ->
        session_get env (S (tick w)) url = Raises e2 ->
        session_get env (S (S (tick w))) url = Raises e3 ->
        is_RequestException e1 = true ->
        is_RequestException e2 = true ->
        is_RequestException e3 = true ->
        redis_fault env (S (S (S (tick w)))) = None ->
        exists w',
          scrape_url env self url w = (Ok None, w') /\
          trace w' =
            (trace w ++
             [Sleep (request_delay self); Get url;
              Log WARNING (AttemptFailed 1 url e1 (backoff_factor self ^ 0));
              Sleep (backoff_factor self ^ 0);
              Sleep (request_delay self); Get url;
              Log WARNING (AttemptFailed 2 url e2 (backoff_factor self ^ 1));
              Sleep (backoff_factor self ^ 1);
              Sleep (request_delay self); Get url;
              Log WARNING (AttemptFailed 3 url e3 (backoff_factor self ^ 2));
              Log ERROR (FailedToScrape url 3)])%list /\
          failed (redis w') = {[url]} ∪ failed (redis w) /\
          completed (redis w') = completed (redis w) /\
          pending (redis w') = pending (redis w) /\
          urls_failed (stats w') = urls_failed (stats w) + 1 /\
          urls_scraped (stats w') = urls_scraped (stats w) /\
          errors (stats w') = (errors (stats w) ++ [(url ++ ": " ++ exn_str e3)%string])%list).
Proof.
  intros Hmr e1 e2 e3 H1 H2 H3 He1 He2 He3 Hredis.
  unfold scrape_url. rewrite Hmr. change (Z.to_nat 3) with 3%nat.
  rewrite (scrape_attempts_retry env self _ _ _ _ e1 H1 He1) by (rewrite Hmr; lia).
  match goal with
  | |- context [scrape_attempts env self _ _ url ?w0] =>
      rewrite (scrape_attempts_retry env self _ _ url w0 e2 H2 He2)
        by (rewrite Hmr; lia)
  end.
  match goal with
  | |- context [scrape_attempts env self _ _ url ?w0] =>
      rewrite (scrape_attempts_exhausted env self _ _ url w0 e3 H3 He3)
        by (rewrite Hmr; lia)
  end.
  unfold bind, sadd, redis_client. cbn [tick count_failed modify snd with_stats
    emit attempted next_tick]. rewrite Hredis. cbn.
  eexists. split; [reflexivity |]. cbn. rewrite Hmr.
  rewrite <- !app_assoc. cbn [app].
  repeat split; reflexivity.
Qed.

(** C4.  With [max_retries = 3], [scrape_url] sends at most three requests
    whatever the server answers, each of them right after the politeness
    delay.  When the three attempts raise a
    [RequestException] (and the final [sadd] reaches Redis), the call
    returns [None] after exactly three requests, each one preceded by the
    politeness delay, with waits of [backoff_factor ^ 0] and
    [backoff_factor ^ 1] seconds between consecutive attempts; the URL is
    added to the failed set, [urls_failed] is incremented and one error
    entry is recorded. *)
Theorem scrape_url_three_attempts :
  forall (env : Env) (self : Config) (url : string) (w : World),
    max_retries self = 3 ->
    (requests_made (trace (snd (scrape_url env self url w)))
     <= requests_made (trace w) + 3)%nat /\
    (exists seg,
        trace (snd (scrape_url env self url w)) = (trace w ++ seg)%list /\
        polite (request_delay self) seg) /\
    (forall e1 e2 e3,
        session_get env (tick w) url = Raises e1 ->
        session_get env (S (tick w)) url = Raises e2 ->
        session_get env (S (S (tick w))) url = Raises e3 ->
        is_RequestException e1 = true ->
        is_RequestException e2 = true ->
        is_RequestException e3 = true ->
        redis_fault env (S (S (S (tick w)))) = None ->
        exists w',
          scrape_url env self url w = (Ok None, w') /\
          trace w' =
            (trace w ++
             [Sleep (request_delay self); Get url;
              Log WARNING (AttemptFailed 1 url e1 (backoff_factor self ^ 0));
              Sleep (backoff_factor self ^ 0);
              Sleep (request_delay self); Get url;
              Log WARNING (AttemptFailed 2 url e2 (backoff_factor self ^ 1));
              Sleep (backoff_factor self ^ 1);
              Sleep (request_delay self); Get url;
              Log WARNING (AttemptFailed 3 url e3 (backoff_factor self ^ 2));
              Log ERROR (FailedToScrape url 3)])%list /\
          failed (redis w') = {[url]} ∪ failed (redis w) /\
          completed (redis w') = completed (redis w) /\
          pending (redis w') = pending (redis w) /\
          urls_failed (stats w') = urls_failed (stats w) + 1 /\
          urls_scraped (stats w') = urls_scraped (stats w) /\
          errors (stats w') = (errors (stats w) ++ [(url ++ ": " ++ exn_str e3)%string])%list).
Proof.
  intros env self url w Hmr. split.
  - unfold scrape_url. rewrite Hmr. apply scrape_attempts_requests.
  - split; [apply scrape_attempts_polite |].
    apply scrape_url_exhausted, Hmr.
Qed.

(** C4 against a server that answers 503 three times and would answer 200
    to a fourth request. *)
Lemma scrape_url_three_attempts_witness :
  (requests_made (trace (snd (scrape_url three_503_then_ok (__init__ swapi) film_1 fresh_world)))
   <= 3)%nat /\
  exists w',
    scrape_url three_503_then_ok (__init__ swapi) film_1 fresh_world = (Ok None, w') /\
    requests_made (trace w') = 3%nat /\
    failed (redis w') = {[film_1]} /\
    urls_failed (stats w') = 1 /\
    errors (stats w') = [film_1 ++ ": 503 Server Error: Service Unavailable"].
Proof.
  destruct (scrape_url_three_attempts three_503_then_ok (__init__ swapi) film_1
              fresh_world eq_refl) as (Hle & _ & Hfail).
  split; [exact Hle |].
  destruct (Hfail http_503 http_503 http_503
              eq_refl eq_refl eq_refl eq_refl eq_refl eq_refl eq_refl)
    as (w' & Hrun & Htrace & Hfailed & _ & _ & Hcount & _ & Herrors).
  exists w'. split; [exact Hrun |].
  split; [rewrite Htrace; reflexivity |].
  split; [rewrite Hfailed; apply (right_id_L ∅ (∪)) |].
  split; [rewrite Hcount; reflexivity | rewrite Herrors; reflexivity].
Defined.

(** C5 (the code at the failing input).  The only pending URL is popped and
    fetched once; decoding its body raises an exception that is not a
    [RequestException].  The worker carries on with an error entry logged,
    but [urls_failed] is still 0 and the URL is in none of the pending,
    completed and failed sets. *)
Theorem unexpected_error_leaves_url_unmarked :
  let self := __init__ swapi in
  let w1 := snd (initialize_redis malformed_body self [film_1] fresh_world) in
  let w2 := snd (worker_iteration malformed_body self w1) in
  pending (redis w1) !! film_1 = Some 100.001%Q /\
  fst (worker_iteration malformed_body self w1) = Ok Continue /\
  requests_made (trace w2) = 1%nat /\
  errors (stats w2) = [film_1 ++ ": Expecting value: line 1 column 1 (char 0)"] /\
  urls_failed (stats w2) = 0 /\
  (film_1 ∉ failed (redis w2)) /\
  (film_1 ∉ completed (redis w2)) /\
  pending (redis w2) !! film_1 = None.
Proof.
  cbv zeta.
  repeat split; try (vm_compute; reflexivity);
    intros H; vm_compute in H; discriminate.
Qed.

Lemma fetch_all_errors env self e urls : forall w,
  max_retries self = 3 ->
  (forall n url, session_get env n url = Raises e) ->
  is_RequestException e = true ->
  (forall n, redis_fault env n = None) ->
  errors (stats (fetch_all env self urls w)) =
  (errors (stats w) ++ map (fun url => (url ++ ": " ++ exn_str e)%string) urls)%list.
Proof.
  induction urls as [| url urls IH]; intros w Hmr Hget He Hredis.
  - simpl. now rewrite app_nil_r.
  - simpl.
    destruct (scrape_url_exhausted env self url w Hmr e e e
                (Hget _ _) (Hget _ _) (Hget _ _) He He He (Hredis _))
      as (w' & Hrun & _ & _ & _ & _ & _ & _ & Herr).
    rewrite Hrun. simpl. rewrite IH by assumption.
    rewrite Herr, <- app_assoc. reflexivity.
Qed.

(** C9 (counterexample).  No bound holds: against a server that always
    answers 503, fetching [n] URLs leaves [n] entries in the error log. *)
Lemma error_log_has_no_bound :
  ~ exists N : nat, forall urls : list string,
      (length (errors (stats (fetch_all always_503 (__init__ swapi) urls fresh_world)))
       <= N)%nat.
Proof.
  intros [N HN].
  specialize (HN (repeat film_1 (S N))).
  rewrite (fetch_all_errors always_503 (__init__ swapi) http_503) in HN;
    [| reflexivity | reflexivity | reflexivity | reflexivity].
  simpl errors in HN. rewrite app_nil_l, length_map, repeat_length in HN. lia.
Qed.

(** What one call of the retry loop does to the error log: nothing when
    it returns a page, one entry at the end otherwise. *)
Lemma scrape_attempts_log env self url : forall n attempt w r w',
  attempt + Z.of_nat n = max_retries self ->
  scrape_attempts env self n attempt url w = (r, w') ->
  match r with
  | Ok (Some _) => errors (stats w') = errors (stats w)
  | _ =>
      (0 < n)%nat ->
      exists e,
        errors (stats w') = (errors (stats w) ++ [(url ++ ": " ++ exn_str e)%string])%list
  end.
Proof.
  induction n as [| n IH]; intros attempt w r w' Hinv.
  { cbn. intros H. inversion H; subst. lia. }
  destruct (session_get env (tick w) url) as [data | e] eqn:Hget.
  - rewrite (scrape_attempts_success env self _ _ _ _ _ Hget).
    intros H. inversion H; subst. reflexivity.
  - destruct (is_RequestException e) eqn:He.
    + destruct (Z_lt_dec attempt (max_retries self - 1)) as [Hlt | Hge].
      * rewrite (scrape_attempts_retry env self _ _ _ _ _ Hget He Hlt).
        intros H. apply IH in H; [| lia].
        destruct r as [[data |] | e0]; cbn in H |- *;
          [exact H | intros _; apply H; lia | intros _; apply H; lia].
      * rewrite (scrape_attempts_exhausted env self _ _ _ _ _ Hget He Hge).
        unfold bind, sadd, redis_client. cbn [tick].
        match goal with
        | |- context [redis_fault env ?t] => destruct (redis_fault env t)
        end; intros H; inversion H; subst; intros _; exists e; reflexivity.
    + rewrite (scrape_attempts_unexpected env self _ _ _ _ _ Hget He).
      intros H. inversion H; subst. intros _. exists e. reflexivity.
Qed.

Lemma shown_errors_suffix w :
  exists older,
    errors (stats w) = (older ++ shown_errors w)%list /\
    length (shown_errors w) = Nat.min 5 (length (errors (stats w))).
Proof.
  unfold shown_errors.
  exists (firstn (length (errors (stats w)) - 5) (errors (stats w))).
  split; [now rewrite firstn_skipn |].
  rewrite length_skipn. lia.
Qed.

(** C9 (amended).  The error log is an append-only list without a bound.
    A call of [scrape_url] that returns a page leaves the log as it was; a
    call that does not (the retries are exhausted, or an unexpected error
    occurred) leaves the log it found followed by exactly one new entry
    for the URL.  An iteration of the worker loop, a whole loop and a whole
    run, whatever the server and Redis do, leave a log that starts with
    the log they found: no entry is evicted or reordered.  Only the report
    of [print_statistics] restricts itself to the last five entries, which
    it reads off the end of the log. *)
Theorem error_log_append_only :
  forall (env : Env) (self : Config),
    0 < max_retries self ->
    (forall url w data w',
        scrape_url env self url w = (Ok (Some data), w') ->
        errors (stats w') = errors (stats w)) /\
    (forall url w r w',
        scrape_url env self url w = (r, w') ->
        (forall data, r <> Ok (Some data)) ->
        exists e,
          errors (stats w') =
            (errors (stats w) ++ [(url ++ ": " ++ exn_str e)%string])%list) /\
    (forall w, log_extends w (snd (worker_iteration env self w))) /\
    (forall fuel w w', worker_loop env self fuel w = Some w' -> log_extends w w') /\
    (forall fuel seed_urls w r w',
        run env self fuel seed_urls w = Some (r, w') -> log_extends w w') /\
    (forall w,
        exists older,
          errors (stats w) = (older ++ shown_errors w)%list /\
          length (shown_errors w) = Nat.min 5 (length (errors (stats w)))).
Proof.
  intros env self Hmr.
  assert (Hstop : forall w, log_extends w (with_stop_event true w)).
  { intros w. exists []. cbn. now rewrite app_nil_r. }
  assert (Hredis : forall r w, log_extends w (with_redis r w)).
  { intros r w. exists []. cbn. now rewrite app_nil_r. }
  split.
  { intros url w data w' H.
    apply (scrape_attempts_log env self url) in H; [exact H | lia]. }
  split.
  { intros url w r w' H Hr.
    apply (scrape_attempts_log env self url) in H; [| lia].
    destruct r as [[data |] | e0]; [now elim (Hr data) | apply H; lia | apply H; lia]. }
  split; [apply (preserves_worker_iteration log_extends env self Hstop) |].
  split; [intros fuel; apply (worker_loop_preserves log_extends env self Hstop) |].
  split; [intros fuel seed_urls; apply (run_preserves log_extends env self Hstop Hredis) |].
  apply shown_errors_suffix.
Qed.

(** C9 (amended) on a log that already holds two entries: a page whose
    body cannot be decoded adds a third one after them (the append of the
    [except Exception] branch), within a fetch and within an iteration of
    the worker. *)
Lemma error_log_append_only_witness :
  (exists e,
      errors (stats (snd (scrape_url malformed_body (__init__ swapi) film_1 two_errors_logged)))
      = (errors (stats two_errors_logged) ++ [(film_1 ++ ": " ++ exn_str e)%string])%list) /\
  log_extends two_errors_logged
    (snd (worker_iteration malformed_body (__init__ swapi) two_errors_logged)).
Proof.
  destruct (error_log_append_only malformed_body (__init__ swapi) eq_refl)
    as (_ & Hfail & Hiter & _).
  split; [| apply Hiter].
  apply (Hfail film_1 two_errors_logged
           (fst (scrape_url malformed_body (__init__ swapi) film_1 two_errors_logged))).
  - apply surjective_pairing.
  - intros data H. vm_compute in H. discriminate.
Defined.

(** ** Properties of the frontier operations *)

Lemma redis_client_ok {A} env (command : Redis -> A * Redis) w :
  redis_fault env (tick w) = None ->
  redis_client env command w =
  (Ok (fst (command (redis w))), with_redis (snd (command (redis w))) (next_tick w)).
Proof.
  intros H. unfold redis_client. rewrite H. now destruct (command (redis w)).
Qed.

Lemma redis_client_fault {A} env (command : Redis -> A * Redis) w msg :
  redis_fault env (tick w) = Some msg ->
  redis_client env command w = (Raise (Exn RedisError msg), next_tick w).
Proof. intros H. unfold redis_client. now rewrite H. Qed.

Lemma redis_eq (r r' : Redis) :
  pending r = pending r' -> completed r = completed r' ->
  failed r = failed r' -> strings r = strings r' -> r = r'.
Proof. destruct r, r'; simpl; intros; subst; reflexivity. Qed.

Lemma known_dec w url : {known w url} + {~ known w url}.
Proof.
  unfold known.
  destruct (decide (url ∈ completed (redis w))); [left; now left |].
  destruct (pending (redis w) !! url) eqn:E; [left; right; eauto |].
  right. intros [? | [? ?]]; [contradiction | discriminate].
Qed.

(** A known URL costs two commands and changes nothing. *)
Lemma add_new_url_known env self depth count url w :
  no_faults env -> known w url ->
  add_new_url env self depth count url w = (Ok count, next_tick (next_tick w)).
Proof.
  intros Hnf Hk. unfold add_new_url, bind, sismember, zscore.
  rewrite redis_client_ok by apply Hnf. cbn [fst snd].
  rewrite redis_client_ok by apply Hnf. cbn [fst snd redis with_redis next_tick].
  destruct Hk as [Hc | [s Hp]].
  - rewrite (bool_decide_eq_true_2 _ Hc). cbn. now destruct w as [[] ? ? ? ? ?].
  - rewrite Hp, andb_false_r. cbn. now destruct w as [[] ? ? ? ? ?].
Qed.

(** A new URL is scored with the next counter value and inserted. *)
Lemma add_new_url_new env self depth count url w :
  no_faults env -> ~ known w url ->
  exists w',
    add_new_url env self depth count url w = (Ok (count + 1), w') /\
    pending (redis w') =
      <[url := score_formula (type_priority (root_url self) url) depth (url_counter w + 1)]>
        (pending (redis w)) /\
    completed (redis w') = completed (redis w) /\
    failed (redis w') = failed (redis w) /\
    strings (redis w') = strings (redis w) /\
    stats w' = stats w /\ stop_event w' = stop_event w /\ trace w' = trace w /\
    url_counter w' = url_counter w + 1.
Proof.
  intros Hnf Hk. unfold add_new_url, bind, sismember, zscore.
  rewrite redis_client_ok by apply Hnf. cbn [fst snd].
  rewrite redis_client_ok by apply Hnf. cbn [fst snd redis with_redis next_tick].
  assert (Hc : url ∉ completed (redis w)) by (intros ?; apply Hk; now left).
  assert (Hp : pending (redis w) !! url = None).
  { destruct (pending (redis w) !! url) eqn:E; [| reflexivity].
    exfalso. apply Hk. right. rewrite E. eauto. }
  rewrite (bool_decide_eq_false_2 _ Hc), Hp. cbn [negb andb].
  rewrite calculate_url_score_eq. unfold zadd.
  rewrite redis_client_ok by apply Hnf.
  eexists. split; [reflexivity |]. cbn. repeat split; reflexivity.
Qed.

Lemma for_fold_add_new_url env self depth urls : forall count w,
  no_faults env ->
  exists n w',
    for_fold urls count (add_new_url env self depth) w = (Ok (count + n), w') /\
    enqueued self depth urls w w' n.
Proof.
  induction urls as [| url rest IH]; intros count w Hnf.
  - exists 0, w. split; [cbn; now rewrite Z.add_0_r |].
    unfold enqueued. repeat split; try reflexivity; try lia.
    intros u. now left.
  - cbn [for_fold]. unfold bind at 1.
    destruct (known_dec w url) as [Hk | Hk].
    + rewrite (add_new_url_known env self depth count url w Hnf Hk).
      destruct (IH count (next_tick (next_tick w)) Hnf) as (n & w' & Hrun & Henq).
      exists n, w'. split; [exact Hrun |].
      destruct Henq as (Hc & Hf & Hs & Hst & Hstop & Htr & Hn & Hcnt & Hsize & Hp & H0).
      unfold enqueued. repeat split; try assumption.
      intros u. destruct (Hp u) as [Hsame | (Hin & Hnk & Hsc)]; [now left |].
      right. split; [apply elem_of_cons; now right |]. split; assumption.
    + destruct (add_new_url_new env self depth count url w Hnf Hk)
        as (w1 & Hstep & Hp1 & Hc1 & Hf1 & Hs1 & Hst1 & Hstop1 & Htr1 & Hcnt1).
      rewrite Hstep.
      destruct (IH (count + 1) w1 Hnf) as (n & w' & Hrun & Henq).
      exists (1 + n), w'. split; [now rewrite Z.add_assoc |].
      destruct Henq as (Hc & Hf & Hs & Hst & Hstop & Htr & Hn & Hcnt & Hsize & Hp & H0).
      assert (Hfresh : pending (redis w) !! url = None).
      { destruct (pending (redis w) !! url) eqn:E; [| reflexivity].
        exfalso. apply Hk. right. rewrite E. eauto. }
      unfold enqueued. repeat split; try congruence; try lia.
      * rewrite Hsize, Hp1, (map_size_insert_None _ _ _ Hfresh). lia.
      * intros u. destruct (Hp u) as [Hsame | (Hin & Hnk & c & Hrange & Hsc)].
        -- destruct (decide (u = url)) as [-> | Hne].
           ++ right. split; [apply elem_of_cons; now left |]. split; [exact Hk |].
              exists (url_counter w + 1). split; [lia |].
              rewrite Hsame, Hp1. apply lookup_insert_eq.
           ++ left. rewrite Hsame, Hp1. now apply lookup_insert_ne.
        -- right. split; [apply elem_of_cons; now right |]. split.
           ++ intros [Hkc | Hkp]; apply Hnk.
              ** left. now rewrite Hc1.
              ** right. rewrite Hp1.
                 destruct (decide (url = u)) as [-> | Hne];
                   [rewrite lookup_insert_eq; eauto | now rewrite lookup_insert_ne].
           ++ exists c. split; [lia | exact Hsc].
Qed.

Lemma enqueued_known self depth urls w w' n url :
  enqueued self depth urls w w' n -> known w url ->
  pending (redis w') !! url = pending (redis w) !! url.
Proof.
  intros (_ & _ & _ & _ & _ & _ & _ & _ & _ & Hp & _) Hk.
  destruct (Hp url) as [Hsame | (_ & Hnk & _)]; [exact Hsame | contradiction].
Qed.

Lemma enqueued_all_known self depth urls w w' n :
  enqueued self depth urls w w' n ->
  (forall url, url ∈ urls -> known w url) -> n = 0.
Proof.
  intros (_ & _ & _ & _ & _ & _ & Hn & _ & Hsize & Hp & _) Hall.
  assert (Heq : pending (redis w') = pending (redis w)).
  { apply map_eq. intros u.
    destruct (Hp u) as [Hsame | (Hin & Hnk & _)]; [exact Hsame |].
    exfalso. apply Hnk, Hall, Hin. }
  rewrite Heq in Hsize. lia.
Qed.

(** [add_new_urls], from the loop to its return value. *)
Lemma add_new_urls_run env self urls depth w :
  no_faults env ->
  exists n w1 w',
    for_fold urls 0 (add_new_url env self depth) w = (Ok n, w1) /\
    enqueued self depth urls w w1 n /\
    add_new_urls env self urls depth w = (Ok n, w') /\
    redis w' = redis w1 /\ url_counter w' = url_counter w1 /\
    stop_event w' = stop_event w1 /\ trace w' = trace w1 /\
    (n = 0 -> stats w' = stats w1) /\
    (0 < n -> last_new_url_time (stats w') = time_time env (tick w1) /\
              errors (stats w') = errors (stats w1) /\
              urls_failed (stats w') = urls_failed (stats w1) /\
              urls_scraped (stats w') = urls_scraped (stats w1)).
Proof.
  intros Hnf.
  destruct (for_fold_add_new_url env self depth urls 0 w Hnf) as (n & w1 & Hrun & Henq).
  rewrite Z.add_0_l in Hrun.
  unfold add_new_urls. unfold bind at 1. rewrite Hrun.
  destruct (0 <? n) eqn:Hpos.
  - apply Z.ltb_lt in Hpos.
    eexists n, w1, _. split; [reflexivity |]. split; [exact Henq |].
    unfold bind, time_now, touch_last_new_url_time, modify, ret.
    split; [reflexivity |]. cbn. repeat split; try reflexivity; lia.
  - apply Z.ltb_ge in Hpos.
    exists n, w1, w1. split; [reflexivity |]. split; [exact Henq |].
    unfold bind, ret.
    repeat split; try reflexivity; lia.
Qed.

(** C7.  [add_new_urls] never touches a URL that is already completed or
    already pending: such a URL is not inserted and its score stays what
    it was, also when other URLs of the same call are inserted.  The
    sequence counter advances by exactly the number of URLs inserted, each
    of them a new member of the pending set.  When every URL of the call
    is known, nothing is inserted, the call returns 0 and leaves the store,
    the statistics (with [last_new_url_time]) and the counter unchanged. *)
Theorem add_new_urls_skips_known :
  forall (env : Env) (self : Config) (urls : list string) (depth : Z) (w : World),
    no_faults env ->
    exists n w',
      add_new_urls env self urls depth w = (Ok n, w') /\
      0 <= n /\
      url_counter w' = url_counter w + n /\
      Z.of_nat (size (pending (redis w'))) = Z.of_nat (size (pending (redis w))) + n /\
      (forall url, known w url ->
                   pending (redis w') !! url = pending (redis w) !! url) /\
      (n = 0 -> same_state w w') /\
      ((forall url, url ∈ urls -> known w url) -> n = 0 /\ same_state w w').
Proof.
  intros env self urls depth w Hnf.
  destruct (add_new_urls_run env self urls depth w Hnf)
    as (n & w1 & w' & Hfold & Henq & Hrun & Hr & Hcnt & Hstop & Htr & Hst0 & _).
  pose proof Henq as (Hc & Hf & Hs & Hst & Hstop1 & Htr1 & Hn & Hcnt1 & Hsize & Hp & H0).
  assert (Hsame : n = 0 -> same_state w w').
  { intros Hz. unfold same_state. rewrite Hr, Hcnt, Hstop, Htr, (Hst0 Hz).
    repeat split; try congruence; try lia.
    apply redis_eq; auto. }
  exists n, w'. split; [exact Hrun |]. split; [exact Hn |].
  split; [lia |]. split; [now rewrite Hr |].
  split; [intros url Hk; rewrite Hr; eapply enqueued_known; eassumption |].
  split; [exact Hsame |].
  intros Hall. pose proof (enqueued_all_known _ _ _ _ _ _ Henq Hall) as Hz.
  split; [exact Hz | exact (Hsame Hz)].
Qed.

(** C7 on a crawl under way: a completed URL and a pending URL are offered
    again. *)
Lemma add_new_urls_skips_known_witness :
  exists w',
    add_new_urls always_503 (__init__ swapi) [film_1; people_1; film_1] 1 busy_world
      = (Ok 0, w') /\
    pending (redis w') !! people_1 = Some 210.002%Q /\
    pending (redis w') !! film_1 = None /\
    url_counter w' = 2 /\
    same_state busy_world w'.
Proof.
  destruct (add_new_urls_skips_known always_503 (__init__ swapi)
              [film_1; people_1; film_1] 1 busy_world (fun _ => eq_refl))
    as (n & w' & Hrun & _ & Hcnt & _ & Hkeep & _ & Hall).
  assert (Hfilm : known busy_world film_1) by (left; vm_compute; reflexivity).
  assert (Hpeople : known busy_world people_1) by (right; vm_compute; eauto).
  destruct Hall as [-> Hsame].
  { intros url Hin. repeat (apply elem_of_cons in Hin as [-> | Hin]); try assumption.
    inversion Hin. }
  exists w'. split; [exact Hrun |].
  split; [rewrite (Hkeep _ Hpeople); vm_compute; reflexivity |].
  split; [rewrite (Hkeep _ Hfilm); vm_compute; reflexivity |].
  split; [rewrite Hcnt; reflexivity | exact Hsame].
Defined.

(** ** Properties of [initialize_redis] *)

Lemma for_each_delete_key env keys : forall w,
  no_faults env ->
  exists w',
    for_each keys (delete_key env) w = (Ok tt, w') /\
    pending (redis w') = pending (redis w) /\
    completed (redis w') = completed (redis w) /\
    failed (redis w') = failed (redis w) /\
    stats w' = stats w /\ url_counter w' = url_counter w /\
    stop_event w' = stop_event w /\ trace w' = trace w /\
    (forall key, key ∈ keys -> strings (redis w') !! key = None) /\
    (forall key, strings (redis w) !! key = None -> strings (redis w') !! key = None).
Proof.
  induction keys as [| key rest IH]; intros w Hnf.
  - exists w. split; [reflexivity |]. repeat split; try reflexivity; auto.
    intros key Hin. inversion Hin.
  - cbn [for_each]. unfold bind at 1, delete_key.
    rewrite redis_client_ok by apply Hnf. cbn [fst snd].
    match goal with |- context [for_each rest _ ?w0] =>
      destruct (IH w0 Hnf) as (w' & Hrun & Hp & Hc & Hf & Hst & Hcnt & Hstop & Htr & Hdel & Hnone)
    end.
    exists w'. split; [exact Hrun |]. repeat split; try assumption.
    + intros k Hin. apply elem_of_cons in Hin as [-> | Hin]; [| now apply Hdel].
      apply Hnone. cbn. apply lookup_delete_eq.
    + intros k Hk. apply Hnone. cbn.
      destruct (decide (key = k)) as [-> | Hne];
        [apply lookup_delete_eq | now rewrite lookup_delete_ne].
Qed.

Lemma add_seed_url_run env self count url w :
  no_faults env ->
  exists w',
    add_seed_url env self count url w = (Ok (count + 1), w') /\
    pending (redis w') =
      <[url := score_formula (type_priority (root_url self) url) 0 (url_counter w + 1)]>
        (pending (redis w)) /\
    completed (redis w') = completed (redis w) /\
    failed (redis w') = failed (redis w) /\
    strings (redis w') = strings (redis w) /\
    stats w' = stats w /\ stop_event w' = stop_event w /\ trace w' = trace w /\
    url_counter w' = url_counter w + 1.
Proof.
  intros Hnf. unfold add_seed_url, bind.
  rewrite calculate_url_score_eq. unfold zadd.
  rewrite redis_client_ok by apply Hnf.
  eexists. split; [reflexivity |]. cbn. repeat split; reflexivity.
Qed.

Lemma for_fold_add_seed_url env self seeds : forall count w,
  no_faults env ->
  exists w',
    for_fold seeds count (add_seed_url env self) w
      = (Ok (count + Z.of_nat (length seeds)), w') /\
    completed (redis w') = completed (redis w) /\
    failed (redis w') = failed (redis w) /\
    strings (redis w') = strings (redis w) /\
    stats w' = stats w /\ stop_event w' = stop_event w /\ trace w' = trace w /\
    url_counter w' = url_counter w + Z.of_nat (length seeds) /\
    dom (pending (redis w')) = dom (pending (redis w)) ∪ list_to_set seeds /\
    (forall url score,
        pending (redis w') !! url = Some score ->
        pending (redis w) !! url = Some score \/
        (url ∈ seeds /\
         exists counter,
           url_counter w < counter <= url_counter w' /\
           score = score_formula (type_priority (root_url self) url) 0 counter)).
Proof.
  induction seeds as [| seed rest IH]; intros count w Hnf.
  - exists w. split; [cbn; now rewrite Z.add_0_r |].
    repeat split; try reflexivity; cbn; try lia; [set_solver | auto].
  - cbn [for_fold]. unfold bind at 1.
    destruct (add_seed_url_run env self count seed w Hnf)
      as (w1 & Hstep & Hp1 & Hc1 & Hf1 & Hs1 & Hst1 & Hstop1 & Htr1 & Hcnt1).
    rewrite Hstep.
    destruct (IH (count + 1) w1 Hnf)
      as (w' & Hrun & Hc & Hf & Hs & Hst & Hstop & Htr & Hcnt & Hdom & Hp).
    exists w'. split.
    { rewrite Hrun. do 2 f_equal. cbn [length]. lia. }
    repeat split; try congruence.
    + rewrite Hcnt, Hcnt1. cbn [length]. lia.
    + rewrite Hdom, Hp1, dom_insert_L. cbn [list_to_set]. set_solver.
    + intros u s Hu. destruct (Hp u s Hu) as [Hold | (Hin & c & Hrange & Hsc)].
      * rewrite Hp1 in Hold. destruct (decide (seed = u)) as [-> | Hne].
        -- rewrite lookup_insert_eq in Hold. inversion Hold; subst s.
           right. split; [apply elem_of_cons; now left |].
           exists (url_counter w + 1). split; [lia | reflexivity].
        -- rewrite lookup_insert_ne in Hold by assumption. now left.
      * right. split; [apply elem_of_cons; now right |].
        exists c. split; [lia | exact Hsc].
Qed.

Lemma initialize_redis_run env self seeds w :
  no_faults env ->
  exists w',
    initialize_redis env self seeds w = (Ok tt, w') /\
    completed (redis w') = ∅ /\
    failed (redis w') = ∅ /\
    (forall key, startswith key DATA_PREFIX = true -> strings (redis w') !! key = None) /\
    dom (pending (redis w')) = list_to_set seeds /\
    (forall url score,
        pending (redis w') !! url = Some score ->
        url ∈ seeds /\
        exists counter,
          url_counter w < counter <= url_counter w + Z.of_nat (length seeds) /\
          score = score_formula (type_priority (root_url self) url) 0 counter) /\
    url_counter w' = url_counter w + Z.of_nat (length seeds) /\
    stats w' = stats w /\ stop_event w' = stop_event w.
Proof.
  intros Hnf. unfold initialize_redis.
  unfold bind at 1, logger at 1, modify.
  unfold bind at 1, delete_queues. rewrite redis_client_ok by apply Hnf. cbn [fst snd].
  unfold bind at 1, scan_iter. rewrite redis_client_ok by apply Hnf. cbn [fst snd].
  unfold bind at 1.
  match goal with |- context [for_each ?ks _ ?w0] =>
    set (keys := ks);
    destruct (for_each_delete_key env keys w0 Hnf)
      as (w1 & Hrun1 & Hp1 & Hc1 & Hf1 & Hst1 & Hcnt1 & Hstop1 & Htr1 & Hdel & Hnone)
  end.
  rewrite Hrun1. unfold bind at 1.
  destruct (for_fold_add_seed_url env self seeds 0 w1 Hnf)
    as (w2 & Hrun2 & Hc2 & Hf2 & Hs2 & Hst2 & Hstop2 & Htr2 & Hcnt2 & Hdom & Hp2).
  rewrite Hrun2. unfold logger, modify.
  eexists. split; [reflexivity |]. cbn [redis emit stats url_counter stop_event].
  cbn in Hp1, Hc1, Hf1, Hst1, Hcnt1, Hstop1, Hdel, Hnone.
  split; [congruence |]. split; [congruence |].
  split.
  { intros key Hpre. rewrite Hs2.
    destruct (strings (redis w) !! key) eqn:E; [| now apply Hnone].
    apply Hdel. unfold keys. apply list_elem_of_filter. split; [exact Hpre |].
    apply elem_of_elements, elem_of_dom. cbn. rewrite E. eauto. }
  split; [rewrite Hdom, Hp1, dom_empty_L; set_solver |].
  split.
  { intros u s Hu. destruct (Hp2 u s Hu) as [Hold | (Hin & c & Hrange & Hsc)].
    - rewrite Hp1, lookup_empty in Hold. discriminate.
    - split; [exact Hin |]. exists c. split; [lia | exact Hsc]. }
  split; [lia |]. split; congruence.
Qed.

(** C10.  [initialize_redis], the first thing [run] does before its worker
    starts, empties the completed set, the failed set and the pending
    queue and deletes every stored record (every key under [DATA_PREFIX]),
    whatever they held; it then enqueues the seed URLs.  Afterwards the
    members of the pending queue are exactly the seed URLs, each with a
    score computed at depth 0 from a counter value handed out during
    the initialisation. *)
Theorem initialize_redis_clears_previous_run :
  forall (env : Env) (self : Config) (seed_urls : list string) (w : World),
    no_faults env ->
    exists w',
      initialize_redis env self seed_urls w = (Ok tt, w') /\
      (forall fuel,
          run env self fuel seed_urls w =
          match worker_thread env self fuel w' with
          | Some w2 => Some (Ok tt, w2)
          | None => None
          end) /\
      completed (redis w') = ∅ /\
      failed (redis w') = ∅ /\
      (forall key, startswith key DATA_PREFIX = true ->
                   strings (redis w') !! key = None) /\
      dom (pending (redis w')) = list_to_set seed_urls /\
      (forall url score,
          pending (redis w') !! url = Some score ->
          url ∈ seed_urls /\
          exists counter,
            url_counter w < counter <= url_counter w + Z.of_nat (length seed_urls) /\
            score = score_formula (type_priority (root_url self) url) 0 counter).
Proof.
  intros env self seed_urls w Hnf.
  destruct (initialize_redis_run env self seed_urls w Hnf)
    as (w' & Hrun & Hc & Hf & Hs & Hdom & Hp & _).
  exists w'. split; [exact Hrun |].
  split; [intros fuel; unfold run; now rewrite Hrun |].
  split; [exact Hc |]. split; [exact Hf |]. split; [exact Hs |].
  split; [exact Hdom | exact Hp].
Qed.

(** C10 on a store that an earlier run left non-empty. *)
Lemma initialize_redis_clears_previous_run_witness :
  exists w',
    initialize_redis always_503 (__init__ swapi) [film_1; people_1] stale_world
      = (Ok tt, w') /\
    completed (redis w') = ∅ /\
    failed (redis w') = ∅ /\
    strings (redis w') !! (DATA_PREFIX ++ "films:1:")%string = None /\
    dom (pending (redis w')) = {[ film_1; people_1 ]}.
Proof.
  destruct (initialize_redis_clears_previous_run always_503 (__init__ swapi)
              [film_1; people_1] stale_world (fun _ => eq_refl))
    as (w' & Hrun & _ & Hc & Hf & Hs & Hdom & _).
  exists w'. split; [exact Hrun |]. split; [exact Hc |]. split; [exact Hf |].
  split; [apply Hs; reflexivity |].
  rewrite Hdom. cbn [list_to_set]. now rewrite (right_id_L ∅ (∪)).
Defined.

(** ** Properties of the worker loop *)

Lemma Qlt_bool_iff x y : Qlt_bool x y = true <-> (x < y)%Q.
Proof.
  unfold Qlt_bool. rewrite negb_true_iff.
  split; intros H.
  - apply Qnot_le_lt. intros Hle. apply Qle_bool_iff in Hle. congruence.
  - destruct (Qle_bool y x) eqn:E; [| reflexivity].
    apply Qle_bool_iff in E. exfalso. apply (Qlt_not_le _ _ H E).
Qed.

Lemma zpopmin_empty env w w1 :
  zpopmin env w = (Ok [], w1) ->
  redis_fault env (tick w) = None /\ w1 = with_redis (redis w) (next_tick w).
Proof.
  unfold zpopmin, redis_client.
  destruct (redis_fault env (tick w)); [discriminate |].
  destruct (zset_min (pending (redis w))) as [[url score] |]; [discriminate |].
  intros H. inversion H. split; reflexivity.
Qed.

Lemma zpopmin_item env w w1 url score rest :
  zpopmin env w = (Ok ((url, score) :: rest), w1) ->
  redis_fault env (tick w) = None /\
  zset_min (pending (redis w)) = Some (url, score) /\
  w1 = with_redis
         {| pending := delete url (pending (redis w));
            completed := completed (redis w);
            failed := failed (redis w);
            strings := strings (redis w) |} (next_tick w).
Proof.
  unfold zpopmin, redis_client.
  destruct (redis_fault env (tick w)); [discriminate |].
  destruct (zset_min (pending (redis w))) as [[u s] |]; [| discriminate].
  intros H. inversion H. subst. repeat split; reflexivity.
Qed.

(** The worker's handler turns every exception of the [try] block into
    "log, sleep one second, next iteration". *)
Lemma worker_iteration_caught env self w e w1 :
  worker_try env self w = (Raise e, w1) ->
  worker_iteration env self w =
  (Ok Continue, emit (Sleep 1) (emit (Log ERROR (WorkerThreadError e)) w1)).
Proof. intros H. unfold worker_iteration, try_except. now rewrite H. Qed.

Lemma worker_iteration_passed env self w c w1 :
  worker_try env self w = (Ok c, w1) ->
  worker_iteration env self w = (Ok c, w1).
Proof. intros H. unfold worker_iteration, try_except. now rewrite H. Qed.

Lemma worker_iteration_total env self w :
  exists c w', worker_iteration env self w = (Ok c, w').
Proof.
  destruct (worker_try env self w) as [[c | e] w1] eqn:E.
  - rewrite (worker_iteration_passed _ _ _ _ _ E). eauto.
  - rewrite (worker_iteration_caught _ _ _ _ _ E). eauto.
Qed.

(** The [try] block leaves the loop only through the idle branch, which
    sets the stop signal first. *)
Lemma worker_try_break env self w w' :
  worker_try env self w = (Ok Break, w') -> stop_event w' = true.
Proof.
  unfold worker_try. unfold bind at 1.
  destruct (zpopmin env w) as [[result | e] w1]; [| discriminate].
  destruct result as [| [url score] rest].
  - unfold bind, time_now, gets, logger, sleep, modify, ret.
    destruct (Qlt_bool _ _); intros H; inversion H; reflexivity.
  - unfold bind at 1.
    destruct (sismember env COMPLETED_SET url w1) as [[[] | e] w2]; try discriminate.
    unfold bind at 1.
    destruct (scrape_url env self url w2) as [[[data |] | e] w3]; try discriminate.
    destruct (truthy data); [| discriminate].
    unfold bind at 1.
    destruct (save_response_data env self url data w3) as [[[] | e] w4]; [| discriminate].
    unfold bind at 1, lift.
    destruct (extract_urls_from_response self data) as [new_urls | e]; [| discriminate].
    unfold bind at 1.
    destruct (add_new_urls env self new_urls _ w4) as [[n | e] w5]; [| discriminate].
    unfold bind at 1.
    destruct (0 <? n); unfold logger, modify, ret;
      unfold bind;
      match goal with
      | |- context [sadd env COMPLETED_SET url ?w0] =>
          destruct (sadd env COMPLETED_SET url w0) as [[[] | e] w6]; discriminate
      end.
Qed.

Lemma worker_iteration_break env self w w' :
  worker_iteration env self w = (Ok Break, w') -> stop_event w' = true.
Proof.
  destruct (worker_try env self w) as [[c | e] w1] eqn:E.
  - rewrite (worker_iteration_passed _ _ _ _ _ E). intros H. inversion H; subst.
    eapply worker_try_break, E.
  - rewrite (worker_iteration_caught _ _ _ _ _ E). discriminate.
Qed.

(** When the loop has ended, the stop signal is set. *)
Lemma worker_loop_exit env self fuel : forall w w',
  worker_loop env self fuel w = Some w' -> stop_event w' = true.
Proof.
  induction fuel as [| fuel IH]; intros w w'; cbn [worker_loop];
    destruct (stop_event w) eqn:Hstop.
  - intros H. inversion H. now subst.
  - discriminate.
  - intros H. inversion H. now subst.
  - destruct (worker_iteration_total env self w) as (c & w1 & Hit).
    rewrite Hit. destruct c.
    + apply IH.
    + intros H. inversion H. subst. eapply worker_iteration_break, Hit.
Qed.

(** How the loop goes on after an iteration. *)
Lemma worker_loop_stopped env self fuel w :
  stop_event w = true -> worker_loop env self fuel w = Some w.
Proof. intros H. destruct fuel; cbn [worker_loop]; now rewrite H. Qed.

Lemma worker_loop_continue env self fuel w w' :
  stop_event w = false ->
  worker_iteration env self w = (Ok Continue, w') ->
  worker_loop env self (S fuel) w = worker_loop env self fuel w'.
Proof. intros Hs Hit. cbn [worker_loop]. now rewrite Hs, Hit. Qed.

Lemma worker_loop_break env self fuel w w' :
  stop_event w = false ->
  worker_iteration env self w = (Ok Break, w') ->
  worker_loop env self (S fuel) w = Some w'.
Proof. intros Hs Hit. cbn [worker_loop]. now rewrite Hs, Hit. Qed.

(** [save_response_data] never raises: a failure of its [SET] is logged
    and nothing else happens. *)
Lemma save_response_data_returns env self url data w :
  exists w',
    save_response_data env self url data w = (Ok tt, w') /\
    (redis_fault env (S (tick w)) = None -> trace w' = trace w) /\
    (forall msg,
        redis_fault env (S (tick w)) = Some msg ->
        w' = emit (Log ERROR (FailedToSave url (Exn RedisError msg)))
               (next_tick (next_tick w))).
Proof.
  unfold save_response_data, try_except, bind, time_now, redis_set, redis_client.
  cbn [tick next_tick].
  destruct (redis_fault env (S (tick w))) as [msg |] eqn:Hf.
  - eexists. split; [reflexivity |]. split; [discriminate |].
    intros msg' H. inversion H. reflexivity.
  - eexists. split; [reflexivity |]. split; [reflexivity | discriminate].
Qed.

(** The only exception that leaves [scrape_url] is the [RedisError] of the
    failed mark, which is sent from inside a handler. *)
Lemma scrape_attempts_raises env self url : forall n attempt w e w',
  scrape_attempts env self n attempt url w = (Raise e, w') ->
  exists msg k t,
    e = Exn RedisError msg /\
    redis_fault env k = Some msg /\ tick w' = S k /\
    trace w' = (t ++ [Log ERROR (FailedToScrape url (max_retries self))])%list.
Proof.
  induction n as [| n IH]; intros attempt w e w'; [discriminate |].
  destruct (session_get env (tick w) url) as [data | e0] eqn:Hget.
  - rewrite (scrape_attempts_success env self _ _ _ _ _ Hget). discriminate.
  - destruct (is_RequestException e0) eqn:He.
    + destruct (Z_lt_dec attempt (max_retries self - 1)) as [Hlt | Hge].
      * rewrite (scrape_attempts_retry env self _ _ _ _ _ Hget He Hlt). apply IH.
      * rewrite (scrape_attempts_exhausted env self _ _ _ _ _ Hget He Hge).
        unfold bind, sadd, redis_client.
        match goal with
        | |- context [redis_fault env ?t] => destruct (redis_fault env t) as [msg |] eqn:Hf
        end; [| discriminate].
        intros H. inversion H; subst. eexists msg, _, _.
        split; [reflexivity |]. split; [exact Hf |]. split; reflexivity.
    + rewrite (scrape_attempts_unexpected env self _ _ _ _ _ Hget He). discriminate.
Qed.

(** Which statements of the [try] block raise into the worker's handler. *)
Lemma worker_try_raises env self w e w' :
  worker_try env self w = (Raise e, w') -> raises_in_try env self w e w'.
Proof.
  unfold worker_try. unfold bind at 1.
  destruct (zpopmin env w) as [[[| [url score] rest] | e0] w1] eqn:Hpop.
  - unfold bind, time_now, gets, logger, sleep, modify, ret.
    destruct (Qlt_bool _ _); discriminate.
  - unfold bind at 1.
    destruct (sismember env COMPLETED_SET url w1) as [[[] | e1] w2] eqn:Hmem;
      [discriminate | |
       intros H; inversion H; subst; eapply raise_in_completed_check; eassumption].
    unfold bind at 1.
    destruct (scrape_url env self url w2) as [[[data |] | e2] w3] eqn:Hscrape;
      [| discriminate |
       intros H; inversion H; subst; eapply raise_in_failed_mark; eassumption].
    destruct (truthy data) eqn:Htruthy; [| discriminate].
    unfold bind at 1.
    destruct (save_response_data_returns env self url data w3) as (w4 & Hsave & _).
    rewrite Hsave.
    unfold bind at 1, lift.
    destruct (extract_urls_from_response self data) as [new_urls | e4] eqn:Hex;
      [| intros H; inversion H; subst; eapply raise_in_extraction; eassumption].
    unfold bind at 1.
    destruct (add_new_urls env self new_urls (current_depth score + 1) w4)
      as [[n | e5] w5] eqn:Hadd;
      [| intros H; inversion H; subst; eapply raise_in_enqueue; eassumption].
    intros H.
    eapply raise_in_completed_mark; try eassumption.
    revert H. unfold bind, logger, modify, ret.
    destruct (0 <? n);
      match goal with
      | |- context [sadd env COMPLETED_SET url ?w0] =>
          destruct (sadd env COMPLETED_SET url w0) as [[[] | e6] w6]
      end; intros H; inversion H; reflexivity.
  - intros H. inversion H; subst. now apply raise_in_pop.
Qed.

Lemma raises_in_try_worker_try env self w e w' :
  raises_in_try env self w e w' -> worker_try env self w = (Raise e, w').
Proof.
  intros [Hpop
         | url score rest w1 Hpop Hmem
         | url score rest w1 w2 Hpop Hmem Hscrape
         | url score rest w1 w2 data w3 Hpop Hmem Hscrape Htruthy Hsave Hex
         | url score rest w1 w2 data w3 w4 new_urls Hpop Hmem Hscrape Htruthy Hsave Hex Hadd
         | url score rest w1 w2 data w3 w4 new_urls n w5
             Hpop Hmem Hscrape Htruthy Hsave Hex Hadd Hmark];
    unfold worker_try; unfold bind at 1; rewrite Hpop; [reflexivity | ..];
    unfold bind at 1; rewrite Hmem; [reflexivity | ..];
    unfold bind at 1; rewrite Hscrape; [reflexivity | ..];
    rewrite Htruthy; unfold bind at 1; rewrite Hsave;
    unfold bind at 1, lift; rewrite Hex; [reflexivity | ..];
    unfold bind at 1; rewrite Hadd; [reflexivity |].
  unfold bind, logger, modify, ret.
  destruct (0 <? n); rewrite Hmark; reflexivity.
Qed.

(** The [break] is that of the idle check. *)
Lemma worker_try_break_idle env self w w' :
  worker_try env self w = (Ok Break, w') ->
  exists w1,
    zpopmin env w = (Ok [], w1) /\
    (no_new_urls_timeout self
       < time_time env (tick w1) - last_new_url_time (stats w))%Q /\
    w' = with_stop_event true (emit (Log INFO NoNewUrlsStopping) (next_tick w1)).
Proof.
  intros H. pose proof H as Hrun. revert H.
  unfold worker_try. unfold bind at 1.
  destruct (zpopmin env w) as [[result | e] w1] eqn:Hpop; [| discriminate].
  destruct result as [| [url score] rest].
  - destruct (zpopmin_empty env w w1 Hpop) as [_ ->].
    unfold bind, time_now, gets, logger, sleep, modify, ret.
    cbn [stats with_redis next_tick tick].
    destruct (Qlt_bool _ _) eqn:Hidle; intros H; inversion H.
    eexists. split; [reflexivity |]. split; [| reflexivity].
    now apply Qlt_bool_iff in Hidle.
  - unfold bind at 1.
    destruct (sismember env COMPLETED_SET url w1) as [[[] | e] w2]; try discriminate.
    unfold bind at 1.
    destruct (scrape_url env self url w2) as [[[data |] | e] w3]; try discriminate.
    destruct (truthy data); [| discriminate].
    unfold bind at 1.
    destruct (save_response_data env self url data w3) as [[[] | e] w4]; [| discriminate].
    unfold bind at 1, lift.
    destruct (extract_urls_from_response self data) as [new_urls | e]; [| discriminate].
    unfold bind at 1.
    destruct (add_new_urls env self new_urls _ w4) as [[n | e] w5]; [| discriminate].
    unfold bind at 1.
    destruct (0 <? n); unfold logger, modify, ret;
      unfold bind;
      match goal with
      | |- context [sadd env COMPLETED_SET url ?w0] =>
          destruct (sadd env COMPLETED_SET url w0) as [[[] | e] w6]; discriminate
      end.
Qed.

(** C8.  When the pop finds the queue empty, the iteration reads the clock
    and breaks exactly when the time since [last_new_url_time] exceeds
    [no_new_urls_timeout].  It then sets the stop signal first, and the
    worker exits: the loop ends in that state without another iteration,
    and a thread that had just started logs that it has finished.
    Otherwise the iteration sleeps one second with the stop signal as it
    was, and the worker retries: the loop goes on with its next iteration
    from that state.  Store and statistics are unchanged either way. *)
Theorem idle_check_stops_after_timeout :
  forall (env : Env) (self : Config) (w w1 : World),
    zpopmin env w = (Ok [], w1) ->
    let idle := (time_time env (tick w1) - last_new_url_time (stats w))%Q in
    exists control w',
      worker_iteration env self w = (Ok control, w') /\
      redis w' = redis w /\ stats w' = stats w /\
      (control = Break <-> (no_new_urls_timeout self < idle)%Q) /\
      (control = Break ->
       stop_event w' = true /\
       trace w' = (trace w ++ [Log INFO NoNewUrlsStopping])%list /\
       (stop_event w = false ->
        forall fuel,
          worker_loop env self (S fuel) w = Some w' /\
          (forall w0,
              w = emit (Log INFO WorkerStarted) w0 ->
              worker_thread env self (S fuel) w0
              = Some (emit (Log INFO WorkerFinished) w')))) /\
      (control = Continue ->
       stop_event w' = stop_event w /\
       trace w' = (trace w ++ [Sleep 1])%list /\
       (stop_event w = false ->
        forall fuel,
          worker_loop env self (S fuel) w = worker_loop env self fuel w' /\
          (forall w0,
              w = emit (Log INFO WorkerStarted) w0 ->
              worker_thread env self (S fuel) w0
              = match worker_loop env self fuel w' with
                | Some w2 => Some (emit (Log INFO WorkerFinished) w2)
                | None => None
                end))).
Proof.
  intros env self w w1 Hpop idle.
  destruct (zpopmin_empty env w w1 Hpop) as [Hfault ->].
  assert (Hrun : worker_try env self w =
    if Qlt_bool (no_new_urls_timeout self) idle
    then (Ok Break,
          with_stop_event true
            (emit (Log INFO NoNewUrlsStopping)
               (next_tick (with_redis (redis w) (next_tick w)))))
    else (Ok Continue,
          emit (Sleep 1) (next_tick (with_redis (redis w) (next_tick w))))).
  { unfold worker_try. unfold bind at 1. rewrite Hpop.
    unfold bind, time_now, gets, logger, sleep, modify, ret. cbn [stats with_redis next_tick].
    subst idle. cbn [tick with_redis next_tick].
    destruct (Qlt_bool _ _); reflexivity. }
  destruct (Qlt_bool (no_new_urls_timeout self) idle) eqn:Hidle.
  - apply worker_iteration_passed in Hrun.
    eexists Break, _. split; [exact Hrun |].
    apply Qlt_bool_iff in Hidle.
    split; [reflexivity |]. split; [reflexivity |].
    split; [split; auto |].
    split; [| discriminate].
    intros _. split; [reflexivity |]. split; [reflexivity |].
    intros Hstop fuel.
    pose proof (worker_loop_break env self fuel w _ Hstop Hrun) as Hloop.
    split; [exact Hloop |].
    intros w0 Hw0. unfold worker_thread. rewrite <- Hw0, Hloop. reflexivity.
  - apply worker_iteration_passed in Hrun.
    eexists Continue, _. split; [exact Hrun |].
    assert (Hnot : ~ (no_new_urls_timeout self < idle)%Q).
    { intros Hlt. apply Qlt_bool_iff in Hlt. congruence. }
    split; [reflexivity |]. split; [reflexivity |].
    split; [split; [discriminate | contradiction] |].
    split; [discriminate |].
    intros _. split; [reflexivity |]. split; [reflexivity |].
    intros Hstop fuel.
    pose proof (worker_loop_continue env self fuel w _ Hstop Hrun) as Hloop.
    split; [exact Hloop |].
    intros w0 Hw0. unfold worker_thread. rewrite <- Hw0, Hloop. reflexivity.
Qed.

(** C8 for a thread that starts on an empty queue: 31 seconds after the
    last discovery it stops and finishes at once; one second after the last
    discovery it sleeps and is still looping when its fuel is spent. *)
Lemma idle_check_stops_after_timeout_witness :
  (exists w',
      worker_iteration half_a_minute_later (__init__ swapi)
        (emit (Log INFO WorkerStarted) fresh_world) = (Ok Break, w') /\
      stop_event w' = true /\
      worker_thread half_a_minute_later (__init__ swapi) 1 fresh_world
      = Some (emit (Log INFO WorkerFinished) w')) /\
  (exists w',
      worker_iteration always_503 (__init__ swapi)
        (emit (Log INFO WorkerStarted) fresh_world) = (Ok Continue, w') /\
      stop_event w' = false /\
      trace w' = [Log INFO WorkerStarted; Sleep 1] /\
      worker_thread always_503 (__init__ swapi) 1 fresh_world = None).
Proof.
  split.
  - destruct (idle_check_stops_after_timeout half_a_minute_later (__init__ swapi)
                (emit (Log INFO WorkerStarted) fresh_world) _ eq_refl)
      as (c & w' & Hrun & _ & _ & Hiff & Hbreak & _).
    assert (Hc : c = Break) by (apply Hiff; reflexivity).
    subst c. exists w'. split; [exact Hrun |].
    destruct (Hbreak eq_refl) as (Hstop & _ & Hloop).
    split; [exact Hstop |].
    apply (Hloop eq_refl 0%nat). reflexivity.
  - destruct (idle_check_stops_after_timeout always_503 (__init__ swapi)
                (emit (Log INFO WorkerStarted) fresh_world) _ eq_refl)
      as (c & w' & Hrun & _ & _ & Hiff & _ & Hcont).
    destruct c.
    + exists w'. split; [exact Hrun |].
      destruct (Hcont eq_refl) as (Hstop & Htrace & Hloop).
      split; [exact Hstop |]. split; [exact Htrace |].
      destruct (Hloop eq_refl 0%nat) as [_ Hthread].
      rewrite (Hthread fresh_world eq_refl).
      cbn [worker_loop]. rewrite Hstop. reflexivity.
    + exfalso. assert (H : Break = Break) by reflexivity.
      apply Hiff in H. vm_compute in H. discriminate.
Defined.

(** C6 (counterexample).  A page lists the number 42 among its character
    URLs; extracting the links raises [AttributeError] inside the worker's
    [try] block.  The error is logged, the worker sleeps one second and
    goes on: the stop signal is not set and the loop has not ended. *)
Lemma internal_error_does_not_end_worker :
  let self := __init__ swapi in
  let w1 := snd (initialize_redis number_in_url_list self [film_1] fresh_world) in
  let e := Exn AttributeError "'int' object has no attribute 'startswith'" in
  fst (worker_try number_in_url_list self w1) = Raise e /\
  fst (worker_iteration number_in_url_list self w1) = Ok Continue /\
  stop_event (snd (worker_iteration number_in_url_list self w1)) = false /\
  skipn 4 (trace (snd (worker_iteration number_in_url_list self w1)))
    = [Log INFO (SuccessfullyScraped film_1); Log ERROR (WorkerThreadError e); Sleep 1] /\
  worker_loop number_in_url_list self 1 w1 = None.
Proof.
  cbv zeta. repeat split; vm_compute; reflexivity.
Qed.

(** A failure that does not reach the worker's handler: Redis fails at the
    [SET] of [save_response_data].  The failure is logged there, nobody
    sleeps the second of the handler, and the iteration goes on to mark
    the URL completed although no record of its page is stored. *)
Example failed_save_goes_unnoticed :
  let w' := snd (worker_iteration (redis_fails_at 4) (__init__ swapi) one_pending) in
  fst (worker_iteration (redis_fails_at 4) (__init__ swapi) one_pending) = Ok Continue /\
  trace w' =
    [Sleep (1 # 2); Get film_1; Log INFO (SuccessfullyScraped film_1);
     Log ERROR (FailedToSave film_1 (Exn RedisError "Connection reset"));
     Log INFO (AddedNewUrls 1 film_1)] /\
  completed (redis w') = {[ film_1 ]} /\
  strings (redis w') = ∅.
Proof. cbv zeta. repeat split; vm_compute; reflexivity. Qed.

(** C6 (amended).  No exception ends the worker's loop, and none leaves an
    iteration.  The statements of the [try] block listed by
    [raises_in_try] (the pop, the completed check, the failed mark that
    [scrape_url] sends after the last retry, the extraction of the links,
    the commands of [add_new_urls], the completed mark) are the ones that
    raise into the handler of the loop, and only they do; the handler logs
    the exception and sleeps one second, the stop signal is as it was, and
    the loop goes on with its next iteration.  A failing pop is the first
    instance.  Errors of the fetch and a failure to save the record do not
    get that far: the only exception that leaves [scrape_url] is the
    [RedisError] of its failed mark, and [save_response_data] always
    returns, logging the failure of its [SET] without a sleep.  The loop is
    left only by the [break] of the idle check, which sets the stop signal,
    or by the test at the top of the loop: whenever the loop has ended,
    the stop signal is set. *)
Theorem worker_catches_every_exception :
  forall (env : Env) (self : Config) (w : World),
    (exists control w', worker_iteration env self w = (Ok control, w')) /\
    (forall e w1,
        worker_try env self w = (Raise e, w1) <-> raises_in_try env self w e w1) /\
    (forall e w1,
        raises_in_try env self w e w1 ->
        worker_iteration env self w = handled e w1 /\
        stop_event (snd (handled e w1)) = stop_event w /\
        (stop_event w = false ->
         forall fuel,
           worker_loop env self (S fuel) w
           = worker_loop env self fuel (snd (handled e w1)))) /\
    (forall msg,
        redis_fault env (tick w) = Some msg ->
        raises_in_try env self w (Exn RedisError msg) (next_tick w)) /\
    (forall url e w',
        scrape_url env self url w = (Raise e, w') ->
        exists msg k t,
          e = Exn RedisError msg /\
          redis_fault env k = Some msg /\ tick w' = S k /\
          trace w' = (t ++ [Log ERROR (FailedToScrape url (max_retries self))])%list) /\
    (forall url data,
        exists w',
          save_response_data env self url data w = (Ok tt, w') /\
          (redis_fault env (S (tick w)) = None -> trace w' = trace w) /\
          (forall msg,
              redis_fault env (S (tick w)) = Some msg ->
              w' = emit (Log ERROR (FailedToSave url (Exn RedisError msg)))
                     (next_tick (next_tick w)))) /\
    (forall w',
        worker_iteration env self w = (Ok Break, w') ->
        stop_event w' = true /\
        exists w1,
          zpopmin env w = (Ok [], w1) /\
          (no_new_urls_timeout self
             < time_time env (tick w1) - last_new_url_time (stats w))%Q) /\
    (forall fuel w', worker_loop env self fuel w = Some w' -> stop_event w' = true).
Proof.
  intros env self w.
  split; [apply worker_iteration_total |].
  split.
  { intros e w1. split; [apply worker_try_raises | apply raises_in_try_worker_try]. }
  split.
  { intros e w1 Hraise. apply raises_in_try_worker_try in Hraise.
    pose proof (worker_iteration_caught _ _ _ _ _ Hraise) as Hit.
    assert (Hstop : stop_event w1 = stop_event w).
    { apply (worker_try_preserves stop_unchanged env self _ _ _ Hraise). discriminate. }
    split; [exact Hit |]. split; [exact Hstop |].
    intros Hs fuel. now apply worker_loop_continue. }
  split.
  { intros msg Hfault. apply raise_in_pop. unfold zpopmin.
    now rewrite (redis_client_fault _ _ _ _ Hfault). }
  split; [intros url e w'; apply scrape_attempts_raises |].
  split; [intros url data; apply save_response_data_returns |].
  split.
  { intros w' Hit. split; [eapply worker_iteration_break, Hit |].
    revert Hit. unfold worker_iteration, try_except.
    destruct (worker_try env self w) as [[c | e] w1] eqn:E.
    - intros H. inversion H; subst.
      destruct (worker_try_break_idle _ _ _ _ E) as (w1 & Hpop & Hidle & _).
      eauto.
    - unfold bind, logger, sleep, modify, ret. discriminate. }
  intros fuel w'. apply worker_loop_exit.
Qed.

(** C6 (amended) with Redis down: the pop raises into the handler, the
    worker logs, sleeps one second, and goes on with the next iteration; it
    is still looping after three of them. *)
Lemma worker_catches_every_exception_witness :
  worker_iteration redis_down (__init__ swapi) fresh_world =
  handled (Exn RedisError "Connection refused") (next_tick fresh_world) /\
  worker_loop redis_down (__init__ swapi) 3 fresh_world =
  worker_loop redis_down (__init__ swapi) 2
    (snd (handled (Exn RedisError "Connection refused") (next_tick fresh_world))) /\
  worker_loop redis_down (__init__ swapi) 3 fresh_world = None.
Proof.
  destruct (worker_catches_every_exception redis_down (__init__ swapi) fresh_world)
    as (_ & _ & Hhandler & Hpop & _).
  destruct (Hhandler _ _ (Hpop "Connection refused" eq_refl)) as (Hit & _ & Hloop).
  split; [exact Hit |].
  split; [apply (Hloop eq_refl 2%nat) |].
  vm_compute. reflexivity.
Defined.

(** C1 (counterexample).  Two runs with one worker.  In the first the page
    of the only seed links back to itself: after one iteration the seed is
    in the completed set and, re-enqueued at depth 1, in the pending queue
    as well.  In the second the first seed exhausts its three attempts
    and the page of the second seed links to it: after two iterations that
    URL is in the failed set and in the pending queue. *)
Lemma url_in_two_collections_at_once :
  let self := __init__ swapi in
  let w1 := snd (initialize_redis links_to_itself self [film_1] fresh_world) in
  let w2 := iterations links_to_itself self 1 w1 in
  let v1 := snd (initialize_redis film_down_but_linked self [film_1; people_1] fresh_world) in
  let v2 := iterations film_down_but_linked self 2 v1 in
  (film_1 ∈ completed (redis w2) /\ pending (redis w2) !! film_1 = Some 110.002%Q) /\
  (film_1 ∈ failed (redis v2) /\ pending (redis v2) !! film_1 = Some 110.003%Q).
Proof.
  cbv zeta. repeat split; vm_compute; reflexivity.
Qed.

(** C1 (amended).  [add_new_urls] changes the pending queue only at URLs of
    its argument that, when it looks, are neither in the completed set nor
    pending, and it does not touch the completed and failed sets; and a
    popped URL that is already in the completed set is dropped by the
    worker without a fetch: only the pending queue loses that URL. *)
Theorem enqueue_and_pop_check_completed :
  forall (env : Env) (self : Config) (w : World),
    no_faults env ->
    (forall urls depth,
        exists n w',
          add_new_urls env self urls depth w = (Ok n, w') /\
          completed (redis w') = completed (redis w) /\
          failed (redis w') = failed (redis w) /\
          forall url,
            pending (redis w') !! url <> pending (redis w) !! url ->
            url ∈ urls /\ (url ∉ completed (redis w)) /\ pending (redis w) !! url = None) /\
    (forall url score w1,
        zpopmin env w = (Ok [(url, score)], w1) ->
        url ∈ completed (redis w) ->
        exists w',
          worker_iteration env self w = (Ok Continue, w') /\
          pending (redis w') = delete url (pending (redis w)) /\
          completed (redis w') = completed (redis w) /\
          failed (redis w') = failed (redis w) /\
          strings (redis w') = strings (redis w) /\
          stats w' = stats w /\ trace w' = trace w).
Proof.
  intros env self w Hnf. split.
  - intros urls depth.
    destruct (add_new_urls_run env self urls depth w Hnf)
      as (n & w1 & w' & _ & Henq & Hrun & Hr & _).
    destruct Henq as (Hc & Hf & _ & _ & _ & _ & _ & _ & _ & Hp & _).
    exists n, w'. split; [exact Hrun |]. rewrite Hr.
    split; [exact Hc |]. split; [exact Hf |].
    intros url Hne. destruct (Hp url) as [Hsame | (Hin & Hnk & _)]; [contradiction |].
    split; [exact Hin |]. split.
    + intros Hc'. apply Hnk. now left.
    + destruct (pending (redis w) !! url) eqn:E; [| reflexivity].
      exfalso. apply Hnk. right. rewrite E. eauto.
  - intros url score w1 Hpop Hdone.
    destruct (zpopmin_item env w w1 url score [] Hpop) as (_ & _ & ->).
    eexists. split.
    + apply worker_iteration_passed.
      unfold worker_try. unfold bind at 1. rewrite Hpop.
      unfold bind at 1, sismember. rewrite redis_client_ok by apply Hnf.
      cbn [fst snd redis with_redis next_tick completed].
      rewrite (bool_decide_eq_true_2 _ Hdone). reflexivity.
    + cbn. repeat split; reflexivity.
Qed.

(** C1 (amended): the seed that was re-enqueued while it was being completed
    is popped again and dropped without a second request. *)
Lemma enqueue_and_pop_check_completed_witness :
  let self := __init__ swapi in
  let w1 := snd (initialize_redis links_to_itself self [film_1] fresh_world) in
  let w2 := iterations links_to_itself self 1 w1 in
  exists w',
    worker_iteration links_to_itself self w2 = (Ok Continue, w') /\
    pending (redis w') = ∅ /\
    completed (redis w') = {[ film_1 ]} /\
    requests_made (trace w') = 1%nat.
Proof.
  intros self w1 w2.
  destruct (enqueue_and_pop_check_completed links_to_itself self w2 (fun _ => eq_refl))
    as [_ Hskip].
  destruct (Hskip film_1 110.002%Q
              (snd (zpopmin links_to_itself w2))
              ltac:(vm_compute; reflexivity) ltac:(vm_compute; reflexivity))
    as (w' & Hrun & Hp & Hc & _ & _ & _ & Htr).
  exists w'. split; [exact Hrun |].
  split; [rewrite Hp; vm_compute; reflexivity |].
  split; [rewrite Hc; vm_compute; reflexivity |].
  rewrite Htr. vm_compute. reflexivity.
Defined.

(** * Further properties of the code *)

(** ** The scorer *)

Lemma split_head (sep : ascii) (s : string) :
  exists p ps,
    split sep s = p :: ps /\
    has_char sep p = false /\
    (ps = [] /\ s = p \/ exists t, s = p ++ String sep t).
Proof.
  induction s as [| c s IH].
  - exists EmptyString, []. repeat split. now left.
  - cbn [split]. destruct (Ascii.eqb c sep) eqn:Hc.
    + apply Ascii.eqb_eq in Hc. subst c.
      exists EmptyString, (split sep s). repeat split. right. now exists s.
    + destruct IH as (p & ps & Hsplit & Hno & Hshape). rewrite Hsplit.
      exists (String c p), ps. split; [reflexivity |]. split.
      * cbn. now rewrite Hc, Hno.
      * destruct Hshape as [[-> ->] | [t ->]]; [now left |].
        right. now exists t.
Qed.

(** X1.  [split] never returns an empty list, so [_calculate_url_score]
    never falls back to the resource type "unknown": the resource type is
    always the text of the URL, with every occurrence of the root removed,
    up to its first "/" (the whole text when there is none). *)
Theorem resource_type_is_first_segment :
  forall (root url : string),
    has_char "/" (resource_type root url) = false /\
    (replace root EmptyString url = resource_type root url \/
     exists tail,
       replace root EmptyString url = resource_type root url ++ String "/" tail).
Proof.
  intros root url. unfold resource_type.
  destruct (split_head "/" (replace root EmptyString url))
    as (p & ps & Hsplit & Hno & Hshape).
  rewrite Hsplit. split; [exact Hno |].
  destruct Hshape as [[_ Hs] | [t Ht]]; [now left | right; now exists t].
Qed.

(** ** [extract_urls_from_response] *)

Lemma collect_urls_dict fields : forall fs acc,
  collect_urls (JObj fields) fs acc =
  Ok (acc ++ concat (map (fun field =>
                            match dict_get field fields with
                            | Some (JArr items) => items
                            | _ => []
                            end) fs))%list.
Proof.
  induction fs as [| f fs IH]; intros acc; cbn [collect_urls map concat].
  - now rewrite app_nil_r.
  - cbn [extend_from_field].
    destruct (dict_get f fields) as [[| | | | | items |] |];
      rewrite IH; try rewrite app_nil_l; try reflexivity.
    now rewrite app_assoc.
Qed.

Lemma truthy_JStr s : truthy (JStr s) = true <-> s <> EmptyString.
Proof.
  cbn. rewrite negb_true_iff. split; intros H.
  - intros ->. discriminate.
  - destruct (String.eqb s EmptyString) eqn:E; [| reflexivity].
    apply String.eqb_eq in E. contradiction.
Qed.

Lemma keep_root_urls_spec self : forall urls,
  (Forall skippable_or_str urls /\
   exists kept,
     keep_root_urls self urls = Ok kept /\
     forall u, u ∈ kept <->
               (JStr u ∈ urls /\ u <> EmptyString /\ startswith u (root_url self) = true)) \/
  (exists j,
      j ∈ urls /\ truthy j = true /\ (forall s, j <> JStr s) /\
      keep_root_urls self urls = Raise (no_startswith j)).
Proof.
  induction urls as [| j urls IH].
  - left. split; [constructor |]. exists []. split; [reflexivity |].
    intros u. split; [intros H; inversion H | intros [H _]; inversion H].
  - cbn [keep_root_urls]. destruct (truthy j) eqn:Hj.
    + destruct j as [| b | n | q | s | items | fs];
        try (right; eexists; split; [apply elem_of_cons; left; reflexivity |];
             split; [exact Hj |]; split; [intros s; discriminate | reflexivity]).
      destruct IH as [(Hall & kept & Hrun & Hmem) | (j & Hin & Ht & Hns & Hrun)].
      * left. split; [constructor; [right; eauto | exact Hall] |].
        rewrite Hrun. eexists. split; [reflexivity |].
        intros u. destruct (startswith s (root_url self)) eqn:Hs.
        -- rewrite elem_of_cons, Hmem, elem_of_cons. split.
           ++ intros [-> | (H1 & H2 & H3)].
              ** split; [now left |]. split; [now apply truthy_JStr | exact Hs].
              ** split; [now right |]. split; assumption.
           ++ intros ([H | H] & H2 & H3).
              ** inversion H. now left.
              ** right. repeat split; assumption.
        -- rewrite Hmem, elem_of_cons. split.
           ++ intros (H1 & H2 & H3). split; [now right |]. split; assumption.
           ++ intros ([H | H] & H2 & H3).
              ** inversion H. subst. congruence.
              ** repeat split; assumption.
      * right. exists j. split; [apply elem_of_cons; now right |].
        split; [exact Ht |]. split; [exact Hns |]. now rewrite Hrun.
    + destruct IH as [(Hall & kept & Hrun & Hmem) | (j' & Hin & Ht & Hns & Hrun)].
      * left. split; [constructor; [now left | exact Hall] |].
        exists kept. split; [exact Hrun |].
        intros u. rewrite Hmem, elem_of_cons. split.
        -- intros (H1 & H2 & H3). split; [now right |]. split; assumption.
        -- intros ([H | H] & H2 & H3).
           ++ subst j. apply truthy_JStr in H2. congruence.
           ++ repeat split; assumption.
      * right. exists j'. split; [apply elem_of_cons; now right |].
        split; [exact Ht |]. split; [exact Hns | exact Hrun].
Qed.

Lemma skippable_not_offending urls :
  Forall skippable_or_str urls ->
  ~ exists j, j ∈ urls /\ truthy j = true /\ forall s, j <> JStr s.
Proof.
  intros Hall (j & Hin & Ht & Hns).
  rewrite Forall_forall in Hall. destruct (Hall j Hin) as [Hf | [s ->]].
  - congruence.
  - now apply (Hns s).
Qed.

Lemma extract_dict self fields :
  extract_urls_from_response self (JObj fields) = keep_root_urls self (linked fields).
Proof.
  unfold extract_urls_from_response. rewrite collect_urls_dict. reflexivity.
Qed.

(** X2.  On a payload that is a JSON object whose link lists hold only
    strings and falsy values, [extract_urls_from_response] raises nothing
    and returns exactly the non-empty strings that stand in a list under one
    of the nine link fields and start with the root URL; other fields, and
    link fields whose value is not a list, contribute nothing. *)
Theorem extract_returns_links_under_root :
  forall (self : Config) (fields : list (string * json)),
    Forall skippable_or_str (linked fields) ->
    exists urls,
      extract_urls_from_response self (JObj fields) = Ok urls /\
      forall u,
        u ∈ urls <->
        (JStr u ∈ linked fields /\ u <> EmptyString /\
         startswith u (root_url self) = true).
Proof.
  intros self fields Hall. rewrite extract_dict.
  destruct (keep_root_urls_spec self (linked fields))
    as [(_ & kept & Hrun & Hmem) | (j & Hin & Ht & Hns & _)].
  - exists kept. split; assumption.
  - exfalso. apply (skippable_not_offending _ Hall). eauto.
Qed.

(** X2 on a film page with an empty string, a null and an off-site URL
    among its characters. *)
Lemma extract_returns_links_under_root_witness :
  exists urls,
    extract_urls_from_response (__init__ swapi)
      (JObj [("title", JStr "A New Hope");
             ("characters", JArr [JStr people_1; JStr EmptyString; JNull;
                                  JStr "https://example.org/x"]);
             ("planets", JStr "not a list")]) = Ok urls /\
    (people_1 ∈ urls) /\
    ("https://example.org/x" ∉ urls).
Proof.
  destruct (extract_returns_links_under_root (__init__ swapi)
              [("title", JStr "A New Hope");
               ("characters", JArr [JStr people_1; JStr EmptyString; JNull;
                                    JStr "https://example.org/x"]);
               ("planets", JStr "not a list")])
    as (urls & Hrun & Hmem).
  { match goal with
    | |- Forall _ ?l => let l' := eval vm_compute in l in change l with l'
    end.
    repeat (constructor;
            [first [left; reflexivity | right; eexists; reflexivity] |]).
    constructor. }
  exists urls. split; [exact Hrun |]. split.
  - apply Hmem. split; [vm_compute; apply elem_of_cons; now left |].
    split; [discriminate | reflexivity].
  - intros Hin. apply Hmem in Hin as (_ & _ & Hs). vm_compute in Hs. discriminate.
Defined.

(** X3.  On a JSON object, [extract_urls_from_response] raises exactly when
    one of its link lists holds a truthy value that is not a string (a
    number, [true], a non-empty list or object), and what it raises then is
    the [AttributeError] of the missing [startswith], whose message names
    the type of such a value; it raises nothing else. *)
Theorem extract_raises_on_non_string_link :
  forall (self : Config) (fields : list (string * json)),
    ((exists j, j ∈ linked fields /\ truthy j = true /\ forall s, j <> JStr s) <->
     exists e, extract_urls_from_response self (JObj fields) = Raise e) /\
    (forall e,
        extract_urls_from_response self (JObj fields) = Raise e ->
        exists j,
          j ∈ linked fields /\ truthy j = true /\ (forall s, j <> JStr s) /\
          e = Exn AttributeError
                ("'" ++ type_name j ++ "' object has no attribute 'startswith'")).
Proof.
  intros self fields. rewrite extract_dict.
  destruct (keep_root_urls_spec self (linked fields))
    as [(Hall & kept & Hrun & _) | (j & Hin & Ht & Hns & Hrun)]; rewrite Hrun.
  - split; [| discriminate]. split; [| intros [e H]; discriminate].
    intros Hbad. exfalso. exact (skippable_not_offending _ Hall Hbad).
  - split.
    + split; [intros _; eauto | intros _; eauto].
    + intros e H. inversion H; subst. exists j. repeat split; assumption.
Qed.

(** ** [save_response_data] *)

Lemma prefix_app (a b : string) : String.prefix a (a ++ b) = true.
Proof.
  induction a as [| c a IH]; [now destruct b |].
  change (String.prefix (String c a) (String c (a ++ b)) = true).
  cbn [String.prefix]. destruct (ascii_dec c c) as [_ | Hne]; [exact IH | contradiction].
Qed.

Lemma data_key_prefix self url : startswith (data_key self url) DATA_PREFIX = true.
Proof. unfold startswith, data_key. apply prefix_app. Qed.

(** X4.  [save_response_data] never raises.  It reads the clock and sends
    one [SET]; when Redis answers, the record (URL, clock reading, payload)
    is stored under a key that starts with [DATA_PREFIX], replacing what
    was there; when Redis fails, the failure is logged at level ERROR and
    swallowed, and nothing is stored.  Queue, sets, statistics and counter
    are untouched either way. *)
Theorem save_response_data_swallows_failures :
  forall (env : Env) (self : Config) (url : string) (data : json) (w : World),
    exists w',
      save_response_data env self url data w = (Ok tt, w') /\
      startswith (data_key self url) DATA_PREFIX = true /\
      pending (redis w') = pending (redis w) /\
      completed (redis w') = completed (redis w) /\
      failed (redis w') = failed (redis w) /\
      stats w' = stats w /\ url_counter w' = url_counter w /\
      stop_event w' = stop_event w /\
      tick w' = S (S (tick w)) /\
      (redis_fault env (S (tick w)) = None ->
       strings (redis w') =
         <[data_key self url :=
             {| sd_url := url; sd_scraped_at := time_time env (tick w); sd_data := data |}]>
           (strings (redis w)) /\
       trace w' = trace w) /\
      (forall msg,
          redis_fault env (S (tick w)) = Some msg ->
          strings (redis w') = strings (redis w) /\
          trace w' = (trace w ++ [Log ERROR (FailedToSave url (Exn RedisError msg))])%list).
Proof.
  intros env self url data w.
  unfold save_response_data, try_except, bind, time_now, redis_set, redis_client.
  cbn [tick next_tick].
  destruct (redis_fault env (S (tick w))) as [msg |] eqn:Hf.
  - eexists. split; [reflexivity |]. split; [apply data_key_prefix |].
    cbn. repeat split; try reflexivity; intros; try discriminate;
      match goal with H : Some _ = Some _ |- _ => inversion H; reflexivity end.
  - eexists. split; [reflexivity |]. split; [apply data_key_prefix |].
    cbn. repeat split; try reflexivity; intros; discriminate.
Qed.

(** ** [scrape_url]: recovery *)

Lemma scrape_attempts_recovers env self url data :
  forall k (e : nat -> exn) n attempt w,
    (k < n)%nat ->
    attempt + Z.of_nat k < max_retries self ->
    (forall i, (i < k)%nat ->
               session_get env (tick w + i) url = Raises (e i) /\
               is_RequestException (e i) = true) ->
    session_get env (tick w + k) url = Responds data ->
    exists w',
      scrape_attempts env self n attempt url w = (Ok (Some data), w') /\
      redis w' = redis w /\
      urls_scraped (stats w') = urls_scraped (stats w) + 1 /\
      urls_failed (stats w') = urls_failed (stats w) /\
      errors (stats w') = errors (stats w) /\
      last_new_url_time (stats w') = last_new_url_time (stats w) /\
      url_counter w' = url_counter w /\ stop_event w' = stop_event w /\
      requests_made (trace w') = (requests_made (trace w) + S k)%nat /\
      tick w' = (tick w + S k)%nat.
Proof.
  induction k as [| k IH]; intros e n attempt w Hn Hatt Hfail Hok.
  - destruct n as [| n]; [lia |].
    rewrite Nat.add_0_r in Hok.
    rewrite (scrape_attempts_success env self n attempt url w data Hok).
    eexists. split; [reflexivity |]. cbn.
    rewrite !requests_made_app. cbn.
    repeat split; try reflexivity; lia.
  - destruct n as [| n]; [lia |].
    destruct (Hfail O ltac:(lia)) as [H0 He0]. rewrite Nat.add_0_r in H0.
    rewrite (scrape_attempts_retry env self n attempt url w (e O) H0 He0) by lia.
    match goal with
    | |- context [scrape_attempts env self n _ url ?w0] =>
        destruct (IH (fun i => e (S i)) n (attempt + 1) w0) as (w' & Hrun & Hr & Hs & Hf & Herr & Hl & Hc & Hst & Hreq & Htick)
    end.
    + lia.
    + lia.
    + intros i Hi. cbn [tick emit attempted next_tick].
      destruct (Hfail (S i) ltac:(lia)) as [H1 H2].
      replace (S (tick w) + i)%nat with (tick w + S i)%nat by lia. split; assumption.
    + cbn [tick emit attempted next_tick].
      replace (S (tick w) + k)%nat with (tick w + S k)%nat by lia. exact Hok.
    + exists w'. split; [exact Hrun |].
      cbn in Hr, Hs, Hf, Herr, Hl, Hc, Hst, Hreq, Htick.
      rewrite !requests_made_app in Hreq. cbn in Hreq.
      repeat split; try assumption; lia.
Qed.

(** X5.  A URL whose first [k] attempts raise a [RequestException] and whose
    next attempt, still within [max_retries], is answered is not a failure:
    [scrape_url] returns the payload after [k + 1] requests, counts the URL
    once in [urls_scraped], and leaves [urls_failed], the error log and the
    whole store (so the failed set) as they were. *)
Theorem scrape_url_recovers_within_retries :
  forall (env : Env) (self : Config) (url : string) (data : json)
         (e : nat -> exn) (k : nat) (w : World),
    Z.of_nat k < max_retries self ->
    (forall i, (i < k)%nat ->
               session_get env (tick w + i) url = Raises (e i) /\
               is_RequestException (e i) = true) ->
    session_get env (tick w + k) url = Responds data ->
    exists w',
      scrape_url env self url w = (Ok (Some data), w') /\
      redis w' = redis w /\
      urls_scraped (stats w') = urls_scraped (stats w) + 1 /\
      urls_failed (stats w') = urls_failed (stats w) /\
      errors (stats w') = errors (stats w) /\
      requests_made (trace w') = (requests_made (trace w) + S k)%nat.
Proof.
  intros env self url data e k w Hk Hfail Hok.
  destruct (scrape_attempts_recovers env self url data k e
              (Z.to_nat (max_retries self)) 0 w)
    as (w' & Hrun & Hr & Hs & Hf & Herr & _ & _ & _ & Hreq & _);
    [lia | lia | exact Hfail | exact Hok |].
  exists w'. unfold scrape_url. repeat split; assumption.
Qed.

(** X5 against a server that answers 503 twice and then 200. *)
Lemma scrape_url_recovers_within_retries_witness :
  exists w',
    scrape_url two_503_then_ok (__init__ swapi) film_1 fresh_world
      = (Ok (Some a_new_hope), w') /\
    failed (redis w') = ∅ /\
    urls_scraped (stats w') = 1 /\ urls_failed (stats w') = 0 /\
    errors (stats w') = [] /\
    requests_made (trace w') = 3%nat.
Proof.
  destruct (scrape_url_recovers_within_retries two_503_then_ok (__init__ swapi)
              film_1 a_new_hope (fun _ => http_503) 2 fresh_world)
    as (w' & Hrun & Hr & Hs & Hf & Herr & Hreq).
  - reflexivity.
  - intros i Hi. split; [| reflexivity].
    destruct i as [| [| i]]; [reflexivity | reflexivity | lia].
  - reflexivity.
  - exists w'. split; [exact Hrun |]. rewrite Hr, Hs, Hf, Herr, Hreq.
    repeat split; reflexivity.
Defined.

(** ** [add_new_urls]: what is enqueued, and what a Redis failure leaves *)

Lemma for_fold_add_new_url_complete env self depth urls : forall count w,
  no_faults env ->
  forall u, u ∈ urls -> u ∉ completed (redis w) ->
    is_Some (pending (redis (snd (for_fold urls count (add_new_url env self depth) w))) !! u).
Proof.
  induction urls as [| url rest IH]; intros count w Hnf u Hin Hnc; [inversion Hin |].
  cbn [for_fold]. unfold bind at 1.
  assert (Hkeep : forall c w1,
             completed (redis w1) = completed (redis w) ->
             is_Some (pending (redis w1) !! u) ->
             is_Some (pending (redis (snd (for_fold rest c (add_new_url env self depth) w1))) !! u)).
  { intros c w1 Hc Hsome.
    destruct (for_fold_add_new_url env self depth rest c w1 Hnf) as (n & w' & Hrun & Henq).
    rewrite Hrun. cbn [snd].
    rewrite (enqueued_known _ _ _ _ _ _ _ Henq); [exact Hsome | now right]. }
  destruct (known_dec w url) as [Hk | Hk].
  - rewrite (add_new_url_known env self depth count url w Hnf Hk).
    apply elem_of_cons in Hin as [-> | Hin].
    + apply Hkeep; [reflexivity |].
      destruct Hk as [Hc | Hp]; [contradiction | exact Hp].
    + now apply IH.
  - destruct (add_new_url_new env self depth count url w Hnf Hk)
      as (w1 & Hstep & Hp1 & Hc1 & _).
    rewrite Hstep.
    apply elem_of_cons in Hin as [-> | Hin].
    + apply Hkeep; [exact Hc1 |]. rewrite Hp1, lookup_insert_eq. eauto.
    + apply IH; [exact Hnf | exact Hin | now rewrite Hc1].
Qed.

(** X6.  When Redis answers, [add_new_urls] leaves every URL of its
    argument that is not completed in the pending queue; a URL of the
    argument that was neither completed nor pending is there with a score
    computed at the given depth from a counter value handed out during the
    call, also when the argument lists it more than once. *)
Theorem add_new_urls_enqueues_every_new_url :
  forall (env : Env) (self : Config) (urls : list string) (depth : Z) (w : World),
    no_faults env ->
    exists n w',
      add_new_urls env self urls depth w = (Ok n, w') /\
      (forall u, u ∈ urls -> u ∉ completed (redis w) ->
                 is_Some (pending (redis w') !! u)) /\
      (forall u, u ∈ urls -> ~ known w u ->
                 exists counter,
                   url_counter w < counter <= url_counter w + n /\
                   pending (redis w') !! u =
                     Some (score_formula (type_priority (root_url self) u) depth counter)).
Proof.
  intros env self urls depth w Hnf.
  destruct (add_new_urls_run env self urls depth w Hnf)
    as (n & w1 & w' & Hfold & Henq & Hrun & Hr & _).
  exists n, w'. split; [exact Hrun |]. rewrite Hr.
  assert (Hall : forall u, u ∈ urls -> u ∉ completed (redis w) ->
                           is_Some (pending (redis w1) !! u)).
  { intros u Hin Hnc.
    pose proof (for_fold_add_new_url_complete env self depth urls 0 w Hnf u Hin Hnc) as H.
    now rewrite Hfold in H. }
  split; [exact Hall |].
  intros u Hin Hnk.
  destruct Henq as (_ & _ & _ & _ & _ & _ & _ & Hcnt & _ & Hp & _).
  destruct (Hp u) as [Hsame | (_ & _ & c & Hrange & Hsc)].
  - exfalso. apply Hnk. right. rewrite <- Hsame. apply Hall; [exact Hin |].
    intros Hc. apply Hnk. now left.
  - exists c. split; [lia | exact Hsc].
Qed.

(** X6 when one new URL is offered twice, next to a completed one. *)
Lemma add_new_urls_enqueues_every_new_url_witness :
  exists n w',
    add_new_urls always_503 (__init__ swapi) [species_1; film_1; species_1] 1 busy_world
      = (Ok n, w') /\
    (forall u, u ∈ [species_1; film_1; species_1] -> u ∉ completed (redis busy_world) ->
               is_Some (pending (redis w') !! u)) /\
    (forall u, u ∈ [species_1; film_1; species_1] -> ~ known busy_world u ->
               exists counter,
                 url_counter busy_world < counter <= url_counter busy_world + n /\
                 pending (redis w') !! u =
                   Some (score_formula (type_priority swapi u) 1 counter)).
Proof.
  apply (add_new_urls_enqueues_every_new_url always_503 (__init__ swapi)
           [species_1; film_1; species_1] 1 busy_world).
  intros k. reflexivity.
Defined.





(** In that run [film_1] was inserted with counter value 1 before the
    failure, and stays pending. *)
Example add_new_urls_partial_insert :
  let w' := snd (add_new_urls (redis_fails_at 3) (__init__ swapi) [film_1; people_1] 1
                   fresh_world) in
  pending (redis w') !! film_1 = Some 110.001%Q /\
  pending (redis w') !! people_1 = None /\
  url_counter w' = 1.
Proof. cbv zeta. repeat split; vm_compute; reflexivity. Qed.

(** ** One iteration of the worker on a page that is answered *)


(** The iteration up to the fetch: the pop, the completion check and the
    first answered attempt. *)
Lemma worker_try_fetched env self w w1 url score data :
  zpopmin env w = (Ok [(url, score)], w1) ->
  url ∉ completed (redis w) ->
  redis_fault env (S (tick w)) = None ->
  session_get env (S (S (tick w))) url = Responds data ->
  0 < max_retries self ->
  exists w3,
    scrape_url env self url (next_tick w1) = (Ok (Some data), w3) /\
    worker_try env self w =
      (if truthy data
       then
         (do save_response_data env self url data ;;
          new_urls <- lift (extract_urls_from_response self data) ;;
          let current_depth := current_depth score in
          new_count <- add_new_urls env self new_urls (current_depth + 1) ;;
          do (if 0 <? new_count then logger INFO (AddedNewUrls new_count url)
              else ret tt) ;;
          do sadd env COMPLETED_SET url ;;
          ret Continue)
       else ret Continue) w3 /\
    pending (redis w3) = delete url (pending (redis w)) /\
    completed (redis w3) = completed (redis w) /\
    failed (redis w3) = failed (redis w) /\
    strings (redis w3) = strings (redis w) /\
    urls_scraped (stats w3) = urls_scraped (stats w) + 1 /\
    urls_failed (stats w3) = urls_failed (stats w) /\
    errors (stats w3) = errors (stats w) /\
    last_new_url_time (stats w3) = last_new_url_time (stats w) /\
    url_counter w3 = url_counter w /\ stop_event w3 = stop_event w /\
    tick w3 = S (S (S (tick w))).
Proof.
  intros Hpop Hnc Hf Hget Hmr.
  destruct (zpopmin_item env w w1 url score [] Hpop) as (_ & _ & ->).
  destruct (Z.to_nat (max_retries self)) as [| n] eqn:Hn; [lia |].
  eexists. split.
  { unfold scrape_url. rewrite Hn. apply scrape_attempts_success. exact Hget. }
  split.
  { unfold worker_try. unfold bind at 1. rewrite Hpop.
    unfold bind at 1, sismember. rewrite redis_client_ok by exact Hf.
    cbn [fst snd redis with_redis next_tick completed].
    rewrite (bool_decide_eq_false_2 _ Hnc).
    unfold bind at 1, scrape_url. rewrite Hn.
    match goal with
    | |- context [scrape_attempts env self (S n) 0 url ?w0] =>
        rewrite (scrape_attempts_success env self n 0 url w0 data Hget)
    end.
    destruct (truthy data); reflexivity. }
  cbn. repeat split; reflexivity.
Qed.

(** X8.  A page whose payload is falsy (an empty object or list, [null],
    0, [false] or an empty string) is counted in [urls_scraped], but the
    worker does nothing more with it: it is popped from the queue and ends
    neither completed nor failed, and no record is stored. *)
Theorem falsy_payload_is_dropped :
  forall (env : Env) (self : Config) (w w1 : World) (url : string) (score : Q)
         (data : json),
    zpopmin env w = (Ok [(url, score)], w1) ->
    url ∉ completed (redis w) ->
    redis_fault env (S (tick w)) = None ->
    session_get env (S (S (tick w))) url = Responds data ->
    0 < max_retries self ->
    truthy data = false ->
    exists w',
      worker_iteration env self w = (Ok Continue, w') /\
      pending (redis w') = delete url (pending (redis w)) /\
      completed (redis w') = completed (redis w) /\
      failed (redis w') = failed (redis w) /\
      strings (redis w') = strings (redis w) /\
      urls_scraped (stats w') = urls_scraped (stats w) + 1 /\
      urls_failed (stats w') = urls_failed (stats w) /\
      errors (stats w') = errors (stats w).
Proof.
  intros env self w w1 url score data Hpop Hnc Hf Hget Hmr Hfalsy.
  destruct (worker_try_fetched env self w w1 url score data Hpop Hnc Hf Hget Hmr)
    as (w3 & _ & Htry & Hp & Hc & Hfl & Hs & Hsc & Hfa & Herr & _).
  rewrite Hfalsy in Htry. exists w3.
  split; [apply worker_iteration_passed; exact Htry |].
  repeat split; assumption.
Qed.

(** X8 on a queue of one URL whose page is the empty object. *)
Lemma falsy_payload_is_dropped_witness :
  exists w',
    worker_iteration empty_pages (__init__ swapi) one_pending = (Ok Continue, w') /\
    pending (redis w') = delete film_1 (pending (redis one_pending)) /\
    completed (redis w') = completed (redis one_pending) /\
    failed (redis w') = failed (redis one_pending) /\
    strings (redis w') = strings (redis one_pending) /\
    urls_scraped (stats w') = urls_scraped (stats one_pending) + 1 /\
    urls_failed (stats w') = urls_failed (stats one_pending) /\
    errors (stats w') = errors (stats one_pending).
Proof.
  apply (falsy_payload_is_dropped empty_pages (__init__ swapi) one_pending
           (snd (zpopmin empty_pages one_pending)) film_1 100.001%Q (JObj [])).
  - vm_compute. reflexivity.
  - intros H. vm_compute in H. discriminate.
  - reflexivity.
  - reflexivity.
  - reflexivity.
  - reflexivity.
Defined.



(** ** What the worker never takes back *)

#[local] Instance grows_progress : Progress grows.
Proof.
  split; unfold grows.
  - intros w. repeat split; try reflexivity; try lia; auto;
      exists []; now rewrite app_nil_r.
  - intros w1 w2 w3
      (Hc & Hf & Hn & Hs & Hfa & Hst & [e1 He] & [t1 Ht] & Hstop & Htick)
      (Hc' & Hf' & Hn' & Hs' & Hfa' & Hst' & [e2 He'] & [t2 Ht'] & Hstop' & Htick').
    repeat split; try lia; try congruence; try (etransitivity; eassumption).
    + exists (e1 ++ e2)%list. now rewrite He', He, app_assoc.
    + exists (t1 ++ t2)%list. now rewrite Ht', Ht, app_assoc.
    + auto.
  - intros ev w. cbn. repeat split; try reflexivity; try lia; auto.
    + exists []. now rewrite app_nil_r.
    + now exists [ev].
  - intros w. cbn. repeat split; try reflexivity; try lia; auto;
      exists []; now rewrite app_nil_r.
  - intros r w Hc Hf. cbn. repeat split; try assumption; try reflexivity; try lia; auto;
      exists []; now rewrite app_nil_r.
  - intros w. cbn. repeat split; try reflexivity; try lia; auto;
      exists []; now rewrite app_nil_r.
  - intros s w Hst Hsc Hfa Herr. cbn.
    repeat split; try assumption; try reflexivity; try lia; auto.
    exists []. now rewrite app_nil_r.
Qed.

Lemma grows_stop w : grows w (with_stop_event true w).
Proof.
  unfold grows. cbn. repeat split; try reflexivity; try lia;
    exists []; now rewrite app_nil_r.
Qed.

(** X10.  Whatever the server and Redis do, an iteration of the worker
    loop, and so a whole run of the loop, never takes anything back: no URL
    leaves the completed or the failed set, the sequence counter and the
    two statistics counters do not decrease, no entry of the error log and
    no event of the trace is dropped, [start_time] is not touched, and a
    stop signal that is set stays set. *)
Theorem worker_never_takes_back :
  forall (env : Env) (self : Config) (w : World),
    grows w (snd (worker_iteration env self w)) /\
    (forall fuel w', worker_loop env self fuel w = Some w' -> grows w w') /\
    (forall fuel w', worker_thread env self fuel w = Some w' -> grows w w').
Proof.
  intros env self w.
  split; [apply (preserves_worker_iteration grows env self grows_stop) |].
  split; [intros fuel; apply (worker_loop_preserves grows env self grows_stop) |].
  intros fuel. apply (worker_thread_preserves grows env self grows_stop).
Qed.

(** ** [initialize_redis]: failure and repeated seeds *)

(** X11.  [initialize_redis] is not undone when Redis fails half-way, and
    [run] does not catch the failure: if the command after the deletion of
    the three queues fails, [run] ends with that [RedisError] before any
    worker starts; the queues of the previous run are already gone, the
    stored records are still there, and no seed has been enqueued. *)
Theorem initialize_redis_failure_leaves_empty_queues :
  forall (env : Env) (self : Config) (seed_urls : list string) (w : World) (msg : string),
    redis_fault env (tick w) = None ->
    redis_fault env (S (tick w)) = Some msg ->
    exists w',
      initialize_redis env self seed_urls w = (Raise (Exn RedisError msg), w') /\
      (forall fuel,
          run env self fuel seed_urls w = Some (Raise (Exn RedisError msg), w')) /\
      pending (redis w') = ∅ /\ completed (redis w') = ∅ /\ failed (redis w') = ∅ /\
      strings (redis w') = strings (redis w) /\
      url_counter w' = url_counter w /\
      trace w' = (trace w ++ [Log INFO InitializingRedis])%list.
Proof.
  intros env self seed_urls w msg H0 H1.
  assert (Hrun : initialize_redis env self seed_urls w =
                 (Raise (Exn RedisError msg),
                  next_tick
                    (with_redis
                       {| pending := ∅; completed := ∅; failed := ∅;
                          strings := strings (redis w) |}
                       (next_tick (emit (Log INFO InitializingRedis) w))))).
  { unfold initialize_redis.
    unfold bind at 1, logger at 1, modify.
    unfold bind at 1, delete_queues. rewrite redis_client_ok by exact H0. cbn [fst snd].
    unfold bind at 1, scan_iter. rewrite (redis_client_fault _ _ _ msg) by exact H1.
    reflexivity. }
  eexists. split; [exact Hrun |].
  split; [intros fuel; unfold run; now rewrite Hrun |].
  cbn. repeat split; reflexivity.
Qed.

(** X11 on the store that an earlier run left behind. *)
Lemma initialize_redis_failure_leaves_empty_queues_witness :
  exists w',
    initialize_redis (redis_fails_at 1) (__init__ swapi) [film_1] stale_world
      = (Raise (Exn RedisError "Connection reset"), w') /\
    (forall fuel,
        run (redis_fails_at 1) (__init__ swapi) fuel [film_1] stale_world
        = Some (Raise (Exn RedisError "Connection reset"), w')) /\
    pending (redis w') = ∅ /\ completed (redis w') = ∅ /\ failed (redis w') = ∅ /\
    strings (redis w') = strings (redis stale_world) /\
    url_counter w' = url_counter stale_world /\
    trace w' = (trace stale_world ++ [Log INFO InitializingRedis])%list.
Proof.
  apply (initialize_redis_failure_leaves_empty_queues (redis_fails_at 1)
           (__init__ swapi) [film_1] stale_world "Connection reset");
    reflexivity.
Defined.

Lemma for_fold_app {A B} (body : B -> A -> M B) (xs ys : list A) : forall acc w,
  for_fold (xs ++ ys) acc body w =
  match for_fold xs acc body w with
  | (Ok acc', w') => for_fold ys acc' body w'
  | (Raise e, w') => (Raise e, w')
  end.
Proof.
  induction xs as [| x xs IH]; intros acc w; [reflexivity |].
  cbn [app for_fold]. unfold bind.
  destruct (body acc x w) as [[b | e] w1]; [apply IH | reflexivity].
Qed.

Lemma initialize_redis_seeding env self seeds w :
  no_faults env ->
  exists w1 w2 n,
    pending (redis w1) = ∅ /\ url_counter w1 = url_counter w /\
    for_fold seeds 0 (add_seed_url env self) w1 = (Ok n, w2) /\
    initialize_redis env self seeds w = (Ok tt, emit (Log INFO (AddedSeedUrls n)) w2).
Proof.
  intros Hnf. unfold initialize_redis.
  unfold bind at 1, logger at 1, modify.
  unfold bind at 1, delete_queues. rewrite redis_client_ok by apply Hnf. cbn [fst snd].
  unfold bind at 1, scan_iter. rewrite redis_client_ok by apply Hnf. cbn [fst snd].
  unfold bind at 1.
  match goal with |- context [for_each ?ks _ ?w0] =>
    destruct (for_each_delete_key env ks w0 Hnf)
      as (w1 & Hrun1 & Hp1 & _ & _ & _ & Hcnt1 & _)
  end.
  rewrite Hrun1. unfold bind at 1.
  destruct (for_fold_add_seed_url env self seeds 0 w1 Hnf) as (w2 & Hrun2 & _).
  exists w1, w2, (0 + Z.of_nat (length seeds)).
  split; [exact Hp1 |]. split; [exact Hcnt1 |]. split; [exact Hrun2 |].
  rewrite Hrun2. reflexivity.
Qed.

(** X12.  [initialize_redis] scores every occurrence of a seed and writes
    it with [zadd] without looking: the score a seed ends up with is the
    one of its last occurrence in the list, computed at depth 0 from the
    counter value of that position; an earlier score of the same seed is
    overwritten. *)
Theorem seed_is_scored_by_its_last_occurrence :
  forall (env : Env) (self : Config) (before after : list string) (url : string)
         (w : World),
    no_faults env ->
    url ∉ after ->
    exists w',
      initialize_redis env self (before ++ url :: after) w = (Ok tt, w') /\
      pending (redis w') !! url =
        Some (score_formula (type_priority (root_url self) url) 0
                (url_counter w + Z.of_nat (length before) + 1)) /\
      url_counter w' = url_counter w + Z.of_nat (length (before ++ url :: after)).
Proof.
  intros env self before after url w Hnf Hnotin.
  destruct (initialize_redis_seeding env self (before ++ url :: after) w Hnf)
    as (w1 & w2 & n & Hp1 & Hcnt1 & Hfold & Hrun).
  eexists. split; [exact Hrun |]. cbn [redis emit url_counter].
  rewrite for_fold_app in Hfold.
  destruct (for_fold_add_seed_url env self before 0 w1 Hnf)
    as (wa & Hruna & _ & _ & _ & _ & _ & _ & Hcnta & _).
  rewrite Hruna in Hfold. cbn [for_fold] in Hfold. unfold bind at 1 in Hfold.
  destruct (add_seed_url_run env self (0 + Z.of_nat (length before)) url wa Hnf)
    as (wb & Hstep & Hpb & _ & _ & _ & _ & _ & _ & Hcntb).
  rewrite Hstep in Hfold.
  destruct (for_fold_add_seed_url env self after
              (0 + Z.of_nat (length before) + 1) wb Hnf)
    as (wc & Hrunc & _ & _ & _ & _ & _ & _ & Hcntc & Hdom & Hp).
  rewrite Hrunc in Hfold. inversion Hfold; subst n w2.
  split.
  - assert (Hin : url ∈ dom (pending (redis wc))).
    { rewrite Hdom, Hpb, dom_insert_L. set_solver. }
    apply elem_of_dom in Hin as [s Hs].
    destruct (Hp url s Hs) as [Hold | [Hin _]]; [| contradiction].
    rewrite Hpb, lookup_insert_eq in Hold. injection Hold as Heq.
    rewrite Hs, <- Heq.
    replace (url_counter wa + 1) with (url_counter w + Z.of_nat (length before) + 1) by lia.
    reflexivity.
  - rewrite Hcntc, Hcntb, Hcnta, Hcnt1, length_app. cbn [length]. lia.
Qed.

(** X12 for a seed list that names [film_1] twice. *)
Lemma seed_is_scored_by_its_last_occurrence_witness :
  exists w',
    initialize_redis always_503 (__init__ swapi) ([film_1; people_1] ++ film_1 :: [])
      fresh_world = (Ok tt, w') /\
    pending (redis w') !! film_1 =
      Some (score_formula (type_priority swapi film_1) 0
              (url_counter fresh_world + Z.of_nat (length [film_1; people_1]) + 1)) /\
    url_counter w' =
      url_counter fresh_world + Z.of_nat (length ([film_1; people_1] ++ film_1 :: [])).
Proof.
  apply (seed_is_scored_by_its_last_occurrence always_503 (__init__ swapi)
           [film_1; people_1] [] film_1 fresh_world).
  - intros k. reflexivity.
  - intros H. inversion H.
Defined.
